(** * Sakila Text2SQL evaluator: a shallow embedding and its properties

    The development follows [03-Sakila-Text2SQL-评估体系.py]
    (class [SakilaText2SQLEvaluator]).  Python values are modelled as
    follows.

    - [str]: a list of [ascii] characters.  The model covers the ASCII
      repertoire exactly (case mapping of [A-Z]/[a-z], the ten ASCII
      characters for which [str.isspace] holds); characters above 127 are
      treated as caseless, non-space characters.
    - [int]: [Z]; list indices and lengths that can never be negative: [nat].
    - [float]: [Q] (scores are quotients of small integers); the result of
      [numpy.mean] additionally has a not-a-number value.
    - the SQLite database, [difflib.SequenceMatcher] and [numpy.mean] are
      not part of the evaluator: the database is an abstract [Engine], the
      other two are transcribed from the libraries. *)

From Stdlib Require Import ZArith QArith List Ascii String Lia Lqa Bool.
From stdpp Require Import base option list gmap strings.

Local Open Scope Z_scope.
Local Open Scope list_scope.

(** ** Python strings *)

Module PyStr.

Abbreviation str := (list ascii).

(** String literals of the source. *)
Definition lit (s : string) : str := list_ascii_of_string s.

Definition code (c : ascii) : nat := nat_of_ascii c.

(** [str.isspace] on one character: TAB, LF, VT, FF, CR, FS, GS, RS, US
    and SPACE.  The same class is what [\s] matches in [re] on [str]. *)
Definition isspace (c : ascii) : bool :=
  let n := code c in
  ((9 <=? n)%nat && (n <=? 13)%nat) || ((28 <=? n)%nat && (n <=? 32)%nat).

Definition lower_char (c : ascii) : ascii :=
  let n := code c in
  if ((65 <=? n)%nat && (n <=? 90)%nat) then ascii_of_nat (n + 32) else c.

Definition upper_char (c : ascii) : ascii :=
  let n := code c in
  if ((97 <=? n)%nat && (n <=? 122)%nat) then ascii_of_nat (n - 32) else c.

(** [s.lower()], [s.upper()] *)
Definition lower (s : str) : str := map lower_char s.
Definition upper (s : str) : str := map upper_char s.

(** [s.lstrip(chars)] / [s.rstrip(chars)], the character class given as
    a predicate. *)
Fixpoint lstrip_by (p : ascii -> bool) (s : str) : str :=
  match s with
  | [] => []
  | c :: t => if p c then lstrip_by p t else s
  end.

Fixpoint rstrip_by (p : ascii -> bool) (s : str) : str :=
  match s with
  | [] => []
  | c :: t =>
      match rstrip_by p t with
      | [] => if p c then [] else [c]
      | t' => c :: t'
      end
  end.

(** [s.strip()] *)
Definition strip (s : str) : str := rstrip_by isspace (lstrip_by isspace s).

(** [re.sub(r'\s+', ' ', s)]: every maximal run of whitespace becomes one
    space.  [in_run] tells that the previous character was whitespace,
    that is, the current match of [\s+] is still being extended. *)
Fixpoint re_sub_ws_from (in_run : bool) (s : str) : str :=
  match s with
  | [] => []
  | c :: t =>
      if isspace c
      then (if in_run then re_sub_ws_from true t
            else " "%char :: re_sub_ws_from true t)
      else c :: re_sub_ws_from false t
  end.

Definition re_sub_ws (s : str) : str := re_sub_ws_from false s.

Definition semicolon : ascii := ";"%char.
Definition dquote : ascii := "034"%char.
Definition squote : ascii := "039"%char.

Definition is_semicolon (c : ascii) : bool := Ascii.eqb c semicolon.

(** [s.replace(dquote, squote)]: every double quote becomes a single
    quote. *)
Definition replace_dquote (s : str) : str :=
  map (fun c => if Ascii.eqb c dquote then squote else c) s.

(** [s.startswith(prefix)] *)
Fixpoint startswith (s prefix : str) : bool :=
  match prefix, s with
  | [], _ => true
  | _ :: _, [] => false
  | p :: ps, c :: cs => Ascii.eqb c p && startswith cs ps
  end.

Definition str_eqb (s t : str) : bool := bool_decide (s = t).

End PyStr.
Import PyStr.

(** ** The SQL normalizer *)

(** [SakilaText2SQLEvaluator.normalize_sql] *)
Definition normalize_sql (sql : str) : str :=
  let sql := strip (lower sql) in
  let sql := re_sub_ws sql in
  let sql := rstrip_by is_semicolon sql in
  let sql := replace_dquote sql in
  sql.

(** [SakilaText2SQLEvaluator.exact_match_score] *)
Definition exact_match_score (predicted_sql reference_sql : str) : Q :=
  let norm_pred := normalize_sql predicted_sql in
  let norm_ref := normalize_sql reference_sql in
  if str_eqb norm_pred norm_ref then 1%Q else 0%Q.

(** The normalizer as the specification words it, for comparison with
    [normalize_sql]: lowercase, collapse whitespace runs, trim, strip the
    trailing semicolon, unify the quotes.  [strip_one_semicolon] removes at
    most one trailing semicolon; [normalize_stated] uses it, and
    [normalize_by_steps] removes the whole trailing run instead. *)
Fixpoint strip_one_semicolon (s : str) : str :=
  match s with
  | [] => []
  | [c] => if is_semicolon c then [] else [c]
  | c :: t => c :: strip_one_semicolon t
  end.

Definition normalize_stated (s : str) : str :=
  replace_dquote (strip_one_semicolon (strip (re_sub_ws (lower s)))).

Definition normalize_by_steps (s : str) : str :=
  replace_dquote (rstrip_by is_semicolon (strip (re_sub_ws (lower s)))).

(** ** [difflib.SequenceMatcher]

    Transcribed from CPython's [difflib.py] for the way the evaluator
    calls it: [SequenceMatcher(None, a, b)], that is [isjunk = None] (the
    junk set is empty, so the two junk-only extension loops of
    [find_longest_match] never run) and [autojunk = True]. *)

Module Difflib.

(** [__chain_b]: [b2j] maps each element of [b] to the ascending list of
    its indices ([setdefault] followed by [append]). *)
Fixpoint index_elements (i : nat) (b : str) (b2j : gmap ascii (list nat))
  : gmap ascii (list nat) :=
  match b with
  | [] => b2j
  | elt :: rest =>
      index_elements (S i) rest (<[elt := default [] (b2j !! elt) ++ [i]]> b2j)
  end.

(** The popular elements: with [n >= 200], those occurring more than
    [n // 100 + 1] times. *)
Definition bpopular (n : nat) (b2j : gmap ascii (list nat)) : gset ascii :=
  if (200 <=? n)%nat
  then dom (filter (fun kv => (n / 100 + 1 < length kv.2)%nat) b2j)
  else ∅.

(** [for elt in popular: del b2j[elt]] *)
Definition chain_b (b : str) : gmap ascii (list nat) :=
  let b2j := index_elements 0 b ∅ in
  let popular := bpopular (length b) b2j in
  filter (fun kv => kv.1 ∉ popular) b2j.

(** [j2len.get(j-1, 0)]; the key [-1] is never present. *)
Definition j2len_get_pred (j2len : gmap nat nat) (j : nat) : nat :=
  match j with
  | O => 0%nat
  | S j' => default 0%nat (j2len !! j')
  end.

Abbreviation match_t := (nat * nat * nat)%type.

(** The inner loop of [find_longest_match] over the indices [j] of [a[i]]
    in [b]: [continue] below [blo], [break] from [bhi] on. *)
Fixpoint scan_row (i blo bhi : nat) (j2len : gmap nat nat) (idxs : list nat)
  (newj2len : gmap nat nat) (best : match_t) : gmap nat nat * match_t :=
  match idxs with
  | [] => (newj2len, best)
  | j :: rest =>
      if (j <? blo)%nat then scan_row i blo bhi j2len rest newj2len best
      else if (bhi <=? j)%nat then (newj2len, best)
      else
        let k := (j2len_get_pred j2len j + 1)%nat in
        let newj2len := <[j := k]> newj2len in
        let best :=
          if (best.2 <? k)%nat then ((i + 1 - k)%nat, (j + 1 - k)%nat, k)
          else best in
        scan_row i blo bhi j2len rest newj2len best
  end.

(** One iteration of the outer loop: [b2j.get(a[i], nothing)] is scanned
    and [j2len] becomes [newj2len]. *)
Definition row_step (a : str) (b2j : gmap ascii (list nat)) (blo bhi : nat)
  (st : gmap nat nat * match_t) (i : nat) : gmap nat nat * match_t :=
  let idxs := match a !! i with
              | Some elt => default [] (b2j !! elt)
              | None => []
              end in
  scan_row i blo bhi st.1 idxs ∅ st.2.

Definition elt_eqb (x y : option ascii) : bool :=
  match x, y with
  | Some c, Some d => Ascii.eqb c d
  | _, _ => false
  end.

(** [while besti > alo and bestj > blo and a[besti-1] == b[bestj-1]] *)
Fixpoint extend_back (a b : str) (alo blo besti bestj bestsize : nat)
  {struct besti} : match_t :=
  match besti, bestj with
  | S i', S j' =>
      if (alo <? besti)%nat && (blo <? bestj)%nat
         && elt_eqb (a !! i') (b !! j')
      then extend_back a b alo blo i' j' (S bestsize)
      else (besti, bestj, bestsize)
  | _, _ => (besti, bestj, bestsize)
  end.

(** [while besti+bestsize < ahi and bestj+bestsize < bhi and
    a[besti+bestsize] == b[bestj+bestsize]]; the loop runs at most
    [ahi - (besti+bestsize)] times, which is the [fuel] its caller gives. *)
Fixpoint extend_fwd (fuel : nat) (a b : str) (ahi bhi besti bestj bestsize : nat)
  : nat :=
  match fuel with
  | O => bestsize
  | S fuel' =>
      if (besti + bestsize <? ahi)%nat && (bestj + bestsize <? bhi)%nat
         && elt_eqb (a !! (besti + bestsize)%nat) (b !! (bestj + bestsize)%nat)
      then extend_fwd fuel' a b ahi bhi besti bestj (S bestsize)
      else bestsize
  end.

Definition find_longest_match (a b : str) (b2j : gmap ascii (list nat))
  (alo ahi blo bhi : nat) : match_t :=
  let '(_, best) :=
    fold_left (row_step a b2j blo bhi) (seq alo (ahi - alo)) (∅, (alo, blo, 0%nat)) in
  let '(besti, bestj, bestsize) :=
    extend_back a b alo blo best.1.1 best.1.2 best.2 in
  let bestsize :=
    extend_fwd (ahi - (besti + bestsize)) a b ahi bhi besti bestj bestsize in
  (besti, bestj, bestsize).

Abbreviation range_t := (nat * nat * nat * nat)%type.

(** The [while queue:] loop of [get_matching_blocks].  The queue is kept
    with its top first ([queue.pop()] takes the last element appended).
    Returns the blocks found and what is left of the queue when the fuel
    is used up. *)
Fixpoint match_loop (fuel : nat) (a b : str) (b2j : gmap ascii (list nat))
  (queue : list range_t) (blocks : list match_t)
  : list match_t * list range_t :=
  match fuel, queue with
  | _, [] => (blocks, [])
  | O, _ => (blocks, queue)
  | S fuel', (alo, ahi, blo, bhi) :: queue =>
      let '(i, j, k) := find_longest_match a b b2j alo ahi blo bhi in
      if (0 <? k)%nat then
        let queue :=
          if (alo <? i)%nat && (blo <? j)%nat then (alo, i, blo, j) :: queue
          else queue in
        let queue :=
          if (i + k <? ahi)%nat && (j + k <? bhi)%nat
          then (i + k, ahi, j + k, bhi)%nat :: queue
          else queue in
        match_loop fuel' a b b2j queue (blocks ++ [(i, j, k)])
      else match_loop fuel' a b b2j queue blocks
  end.

(** Tuple order of [matching_blocks.sort()]. *)
Definition match_leb (x y : match_t) : bool :=
  let '(i1, j1, k1) := x in
  let '(i2, j2, k2) := y in
  (i1 <? i2)%nat
  || ((i1 =? i2)%nat && ((j1 <? j2)%nat || ((j1 =? j2)%nat && (k1 <=? k2)%nat))).

Fixpoint insert_sorted (x : match_t) (l : list match_t) : list match_t :=
  match l with
  | [] => [x]
  | y :: t => if match_leb x y then x :: l else y :: insert_sorted x t
  end.

Definition sort_blocks (l : list match_t) : list match_t :=
  foldr insert_sorted [] l.

(** The pass that merges adjacent blocks. *)
Fixpoint collapse_adjacent (cur : match_t) (blocks non_adjacent : list match_t)
  : list match_t :=
  let '(i1, j1, k1) := cur in
  match blocks with
  | [] => if (0 <? k1)%nat then non_adjacent ++ [cur] else non_adjacent
  | (i2, j2, k2) :: rest =>
      if ((i1 + k1 =? i2) && (j1 + k1 =? j2))%nat
      then collapse_adjacent (i1, j1, (k1 + k2)%nat) rest non_adjacent
      else collapse_adjacent (i2, j2, k2) rest
             (if (0 <? k1)%nat then non_adjacent ++ [cur] else non_adjacent)
  end.

(** [get_matching_blocks], with the part of the queue left unprocessed
    (empty: [get_matching_blocks_complete]). *)
Definition get_matching_blocks (a b : str) : list match_t * list range_t :=
  let la := length a in
  let lb := length b in
  let '(blocks, unprocessed) :=
    match_loop (S la) a b (chain_b b) [(0%nat, la, 0%nat, lb)] [] in
  (collapse_adjacent (0, 0, 0)%nat (sort_blocks blocks) [] ++ [(la, lb, 0%nat)],
   unprocessed).

(** [_calculate_ratio] *)
Definition calculate_ratio (matches length : nat) : Q :=
  if (0 <? length)%nat
  then Qred (inject_Z (2 * Z.of_nat matches) / inject_Z (Z.of_nat length))
  else 1%Q.

(** [ratio] *)
Definition ratio (a b : str) : Q :=
  let matches := list_sum (map (fun t : match_t => t.2) (get_matching_blocks a b).1) in
  calculate_ratio matches (length a + length b).

(** *** Notions used to reason about the matcher *)

(** The indices, counted from [i], at which [c] occurs in [b]. *)
Fixpoint positions (c : ascii) (i : nat) (b : str) : list nat :=
  match b with
  | [] => []
  | x :: t =>
      if Ascii.eqb x c then i :: positions c (S i) t else positions c (S i) t
  end.

(** One iteration of the inner loop for an index inside [blo, bhi). *)
Definition scan_step (i : nat) (j2len : gmap nat nat)
  (st : gmap nat nat * match_t) (j : nat) : gmap nat nat * match_t :=
  let k := (j2len_get_pred j2len j + 1)%nat in
  (<[j := k]> st.1,
   if (st.2.2 <? k)%nat then ((i + 1 - k)%nat, (j + 1 - k)%nat, k) else st.2).

(** The length of the run of elements kept in [b2j] (not popular) that
    ends just before index [j] of [s]. *)
Fixpoint run_len (b2j : gmap ascii (list nat)) (s : str) (j : nat) : nat :=
  match j with
  | O => 0%nat
  | S j' =>
      match s !! j' with
      | Some c =>
          match b2j !! c with
          | Some _ => S (run_len b2j s j')
          | None => 0%nat
          end
      | None => 0%nat
      end
  end.

(** What holds of [j2len] and the best match before row [i] is scanned,
    when a sequence is matched against itself. *)
Definition row_inv (b2j : gmap ascii (list nat)) (s : str) (i : nat)
  (st : gmap nat nat * match_t) : Prop :=
  (forall j, j2len_get_pred st.1 j <= run_len b2j s j)%nat
  /\ (forall j, j2len_get_pred st.1 j <= j2len_get_pred st.1 i)%nat
  /\ j2len_get_pred st.1 i = run_len b2j s i
  /\ (forall j, (j <= i)%nat -> (run_len b2j s j <= st.2.2)%nat)
  /\ st.2.1.1 = st.2.1.2
  /\ (st.2.1.1 + st.2.2 <= i)%nat.

(** The number of elements of [a] still to be matched in a queue. *)
Definition queue_size (queue : list range_t) : nat :=
  list_sum (map (fun r : range_t => (r.1.1.2 - r.1.1.1)%nat) queue).

End Difflib.

(** ** The similarity scorer *)

(** [SakilaText2SQLEvaluator.sql_similarity] *)
Definition sql_similarity (sql1 sql2 : str) : Q :=
  let norm_sql1 := normalize_sql sql1 in
  let norm_sql2 := normalize_sql sql2 in
  Difflib.ratio norm_sql1 norm_sql2.

(** ** Python lists: slices *)

(** The bound of a slice on a list of length [n]: a negative bound counts
    from the end, and every bound is clamped to [0..n]. *)
Definition clamp_index (n i : Z) : Z :=
  if i <? 0 then Z.max (i + n) 0 else Z.min i n.

(** [l[lo:hi]] *)
Definition py_slice {A} (l : list A) (lo hi : Z) : list A :=
  let n := Z.of_nat (length l) in
  let lo := clamp_index n lo in
  let hi := clamp_index n hi in
  take (Z.to_nat (hi - lo)) (drop (Z.to_nat lo) l).

(** [l[:hi]] *)
Definition py_slice_to {A} (l : list A) (hi : Z) : list A := py_slice l 0 hi.

Definition len {A} (l : list A) : Z := Z.of_nat (length l).

(** ** The corpus sampler *)

(** One record of the corpus: [{'question': ..., 'sql': ...}]. *)
Record TestCase := { question : str; sql : str }.

(** [item['sql'].strip().upper().startswith(keyword)] *)
Definition sql_startswith (keyword : string) (s : str) : bool :=
  startswith (upper (strip s)) (lit keyword).

(** [SakilaText2SQLEvaluator.select_test_subset]; [test_data] is
    [self.test_data].  Logging is left out. *)
Definition select_test_subset (test_data : list TestCase) (count : Z)
  : list TestCase :=
  if count >=? len test_data then test_data
  else
    let selected_data := [] in
    let select_queries :=
      List.filter (fun item => sql_startswith "SELECT" (sql item)) test_data in
    let insert_queries :=
      List.filter (fun item => sql_startswith "INSERT" (sql item)) test_data in
    let update_queries :=
      List.filter (fun item => sql_startswith "UPDATE" (sql item)) test_data in
    let delete_queries :=
      List.filter (fun item => sql_startswith "DELETE" (sql item)) test_data in
    let select_count := Z.min (count / 2) (len select_queries) in
    let insert_count := Z.min (count / 6) (len insert_queries) in
    let update_count := Z.min (count / 6) (len update_queries) in
    let delete_count := count - select_count - insert_count - update_count in
    let delete_count := Z.min delete_count (len delete_queries) in
    let selected_data := selected_data ++ py_slice_to select_queries select_count in
    let selected_data := selected_data ++ py_slice_to insert_queries insert_count in
    let selected_data := selected_data ++ py_slice_to update_queries update_count in
    let selected_data := selected_data ++ py_slice_to delete_queries delete_count in
    let remaining := count - len selected_data in
    let selected_data :=
      if remaining >? 0
      then selected_data
           ++ py_slice select_queries select_count (select_count + remaining)
      else selected_data in
    py_slice_to selected_data count.

(** The sampling policy as the specification words it, for comparison with
    [select_test_subset]: [first_n k l] is the first [k] items of [l]
    (none when [k] is not positive). *)
Definition first_n {A} (k : Z) (l : list A) : list A := take (Z.to_nat k) l.

Definition bucket (keyword : string) (corpus : list TestCase) : list TestCase :=
  List.filter (fun c => sql_startswith keyword (sql c)) corpus.

Definition sample_stated (corpus : list TestCase) (count : Z) : list TestCase :=
  let selects := bucket "SELECT" corpus in
  let inserts := bucket "INSERT" corpus in
  let updates := bucket "UPDATE" corpus in
  let deletes := bucket "DELETE" corpus in
  let select_quota := Z.min (count / 2) (len selects) in
  let insert_quota := Z.min (count / 6) (len inserts) in
  let update_quota := Z.min (count / 6) (len updates) in
  let delete_quota :=
    Z.min (count - select_quota - insert_quota - update_quota) (len deletes) in
  let picked :=
    first_n select_quota selects ++ first_n insert_quota inserts
    ++ first_n update_quota updates ++ first_n delete_quota deletes in
  let backfill :=
    first_n (count - len picked) (drop (Z.to_nat select_quota) selects) in
  first_n count (picked ++ backfill).

(** ** The database and the executor *)

(** A value of a result row, as [sqlite3] hands it to Python. *)
Inductive sqlval :=
| SqlNull
| SqlInt (z : Z)
| SqlReal (q : Q)
| SqlText (s : str)
| SqlBlob (b : str).

(** Python's [==] on such values: numbers compare by value across [int]
    and [float], other types only with themselves. *)
Definition sqlval_eqb (x y : sqlval) : bool :=
  match x, y with
  | SqlNull, SqlNull => true
  | SqlInt a, SqlInt b => a =? b
  | SqlInt a, SqlReal q => Qeq_bool (inject_Z a) q
  | SqlReal q, SqlInt a => Qeq_bool q (inject_Z a)
  | SqlReal p, SqlReal q => Qeq_bool p q
  | SqlText s, SqlText t => str_eqb s t
  | SqlBlob s, SqlBlob t => str_eqb s t
  | _, _ => false
  end.

Fixpoint list_eqb {A} (eqb : A -> A -> bool) (l1 l2 : list A) : bool :=
  match l1, l2 with
  | [], [] => true
  | x :: t1, y :: t2 => eqb x y && list_eqb eqb t1 t2
  | _, _ => false
  end.

Abbreviation row := (list sqlval).

(** The second component of what [execute_sql] returns: the list of rows,
    the affected-row count, or the text of the error. *)
Inductive pyval :=
| Rows (rows : list row)
| Int (n : Z)
| Str (s : str).

(** [pred_result == ref_result] *)
Definition py_eqb (x y : pyval) : bool :=
  match x, y with
  | Rows r1, Rows r2 => list_eqb (list_eqb sqlval_eqb) r1 r2
  | Int m, Int n => m =? n
  | Str s, Str t => str_eqb s t
  | _, _ => false
  end.

Inductive exn_class :=
| OperationalError
| IntegrityError
| ProgrammingError
| OtherException.

(** An instance of [Exception]; [str(e)] is [exn_message e]. *)
Record py_exn := { exn_kind : exn_class; exn_message : str }.

(** What a cursor holds after [cursor.execute]: the outcome of
    [fetchall()] (rows are produced while fetching, which can fail) and
    [rowcount]. *)
Record cursor := {
  cur_fetchall : py_exn + list row;
  cur_rowcount : Z
}.

(** The database engine behind [sqlite3]: [eng_connect db] is the error of
    [sqlite3.connect] if it fails on database [db]; [eng_execute sql db]
    runs one statement inside the connection's transaction and gives the
    cursor and the database as that connection sees it afterwards;
    [eng_commit db] is the error of [commit] if it fails. *)
Record Engine := {
  DB : Type;
  eng_connect : DB -> option py_exn;
  eng_execute : str -> DB -> py_exn + (cursor * DB);
  eng_commit : DB -> option py_exn
}.

(** The database calls the evaluator makes: a connection was opened,
    [cursor.execute(sql)], [fetchall()], [commit()] and [close()] were
    called. *)
Inductive event :=
| EvConnect
| EvExecute (sql : str)
| EvFetchall
| EvCommit
| EvClose.

Section Evaluator.

Variable E : Engine.

(** The collaborator [generate_sql]: whatever the model answers, cleaned
    up; an empty string when the call fails.  It never raises. *)
Variable generate_sql : str -> str.

(** The state the evaluator acts on: the committed database, the number
    of connections currently open, and the trace of database calls. *)
Record World := {
  disk : DB E;
  open_conns : nat;
  log : list event
}.

(** A connection: the database as seen through it (committed state plus
    its own uncommitted changes). *)
Record Conn := { view : DB E }.

(** Computations that act on the world and either return or raise. *)
Definition Py (A : Type) : Type := World -> (py_exn + A) * World.

Definition ret {A} (a : A) : Py A := fun w => (inr a, w).

Definition raise {A} (e : py_exn) : Py A := fun w => (inl e, w).

Definition bind {A B} (m : Py A) (k : A -> Py B) : Py B :=
  fun w =>
    match m w with
    | (inl e, w') => (inl e, w')
    | (inr a, w') => k a w'
    end.

Definition emit (ev : event) (w : World) : World :=
  {| disk := disk w; open_conns := open_conns w; log := log w ++ [ev] |}.

(** [sqlite3.connect(self.db_path)] *)
Definition connect : Py Conn :=
  fun w =>
    match eng_connect E (disk w) with
    | Some e => (inl e, w)
    | None =>
        (inr {| view := disk w |},
         {| disk := disk w; open_conns := S (open_conns w);
            log := log w ++ [EvConnect] |})
    end.

(** [cursor.execute(sql)] *)
Definition cursor_execute (sql : str) (conn : Conn) : Py (cursor * Conn) :=
  fun w =>
    let w := emit (EvExecute sql) w in
    match eng_execute E sql (view conn) with
    | inl e => (inl e, w)
    | inr (cur, db') => (inr (cur, {| view := db' |}), w)
    end.

(** [cursor.fetchall()] *)
Definition fetchall (cur : cursor) : Py (list row) :=
  fun w =>
    let w := emit EvFetchall w in
    match cur_fetchall cur with
    | inl e => (inl e, w)
    | inr rows => (inr rows, w)
    end.

(** [conn.commit()] *)
Definition conn_commit (conn : Conn) : Py unit :=
  fun w =>
    match eng_commit E (view conn) with
    | Some e => (inl e, emit EvCommit w)
    | None =>
        (inr tt,
         {| disk := view conn; open_conns := open_conns w;
            log := log w ++ [EvCommit] |})
    end.

(** [conn.close()]: uncommitted changes are dropped with the connection.
    It does not raise. *)
Definition conn_close (conn : Conn) : Py unit :=
  fun w =>
    (inr tt,
     {| disk := disk w; open_conns := Nat.pred (open_conns w);
        log := log w ++ [EvClose] |}).

Notation "'let*' x ':=' m 'in' k" := (bind m (fun x => k))
  (at level 10, x name, m at level 100, k at level 200).
Notation "'let*' ' pat ':=' m 'in' k" :=
  (bind m (fun x => match x with pat => k end))
  (at level 10, pat pattern, m at level 100, k at level 200).

(** The body of the [try] block of [execute_sql] after [conn] is bound. *)
Definition execute_sql_body (sql : str) (conn : Conn) : Py (bool * pyval) :=
  if sql_startswith "SELECT" sql then
    let* '(cur, conn) := cursor_execute sql conn in
    let* results := fetchall cur in
    let* _ := conn_close conn in
    ret (true, Rows results)
  else
    let* '(cur, conn) := cursor_execute sql conn in
    let affected_rows := cur_rowcount cur in
    let* _ := conn_commit conn in
    let* _ := conn_close conn in
    ret (true, Int affected_rows).

(** [SakilaText2SQLEvaluator.execute_sql].  The handler of
    [except Exception as e] closes the connection when [conn] is among the
    locals, that is, when [sqlite3.connect] had returned. *)
Definition execute_sql (sql : str) : Py (bool * pyval) :=
  fun w =>
    match connect w with
    | (inl e, w1) => (inr (false, Str (exn_message e)), w1)
    | (inr conn, w1) =>
        match execute_sql_body sql conn w1 with
        | (inl e, w2) =>
            let '(_, w3) := conn_close conn w2 in
            (inr (false, Str (exn_message e)), w3)
        | (inr r, w2) => (inr r, w2)
        end
    end.

(** [SakilaText2SQLEvaluator.execution_accuracy] *)
Definition execution_accuracy (predicted_sql reference_sql : str) : Py Q :=
  let* '(pred_success, pred_result) := execute_sql predicted_sql in
  let* '(ref_success, ref_result) := execute_sql reference_sql in
  if pred_success && ref_success then
    if py_eqb pred_result ref_result then ret 1%Q else ret 0%Q
  else if negb pred_success && negb ref_success then ret 1%Q
  else ret 0%Q.

(** The dictionary [evaluate_single_query] returns.  [str(exec_result)] of
    an error text is that text. *)
Record CaseResult := {
  cr_question : str;
  cr_reference_sql : str;
  cr_predicted_sql : str;
  cr_exact_match : Q;
  cr_similarity : Q;
  cr_execution_accuracy : Q;
  cr_is_executable : bool;
  cr_execution_result : pyval
}.

(** [SakilaText2SQLEvaluator.evaluate_single_query] *)
Definition evaluate_single_query (question reference_sql : str) : Py CaseResult :=
  let predicted_sql := generate_sql question in
  let exact_match := exact_match_score predicted_sql reference_sql in
  let similarity := sql_similarity predicted_sql reference_sql in
  let* exec_accuracy := execution_accuracy predicted_sql reference_sql in
  let* '(is_executable, exec_result) := execute_sql predicted_sql in
  ret {| cr_question := question;
         cr_reference_sql := reference_sql;
         cr_predicted_sql := predicted_sql;
         cr_exact_match := exact_match;
         cr_similarity := similarity;
         cr_execution_accuracy := exec_accuracy;
         cr_is_executable := is_executable;
         cr_execution_result := exec_result |}.

(** A [numpy] float: [numpy.mean] of an empty list is [nan] (with a
    warning, not an exception). *)
Inductive npfloat :=
| NaN
| Float (q : Q).

Definition Qsum (l : list Q) : Q := foldr Qplus 0%Q l.

(** [np.mean] *)
Definition np_mean (l : list Q) : npfloat :=
  match l with
  | [] => NaN
  | _ => Float (Qred (Qsum l / inject_Z (len l)))
  end.

Definition Q_of_bool (b : bool) : Q := if b then 1%Q else 0%Q.

(** The dictionary [evaluate_dataset] returns. *)
Record Report := {
  total_samples : Z;
  exact_match_accuracy : npfloat;
  average_similarity : npfloat;
  rp_execution_accuracy : npfloat;
  execution_success_rate : npfloat;
  detailed_results : list CaseResult
}.

(** The [for] loop of [evaluate_dataset]. *)
Fixpoint evaluate_each (test_data : list TestCase) (results : list CaseResult)
  : Py (list CaseResult) :=
  match test_data with
  | [] => ret results
  | item :: rest =>
      let* result := evaluate_single_query (question item) (sql item) in
      evaluate_each rest (results ++ [result])
  end.

(** [SakilaText2SQLEvaluator.evaluate_dataset]; logging is left out. *)
Definition evaluate_dataset (test_data : list TestCase) : Py Report :=
  let* results := evaluate_each test_data [] in
  let exact_matches := map cr_exact_match results in
  let similarities := map cr_similarity results in
  let exec_accuracies := map cr_execution_accuracy results in
  let executabilities := map (fun r => Q_of_bool (cr_is_executable r)) results in
  ret {| total_samples := len results;
         exact_match_accuracy := np_mean exact_matches;
         average_similarity := np_mean similarities;
         rp_execution_accuracy := np_mean exec_accuracies;
         execution_success_rate := np_mean executabilities;
         detailed_results := results |}.

End Evaluator.

Arguments disk {E} _.
Arguments open_conns {E} _.
Arguments log {E} _.
Arguments view {E} _.
Arguments ret {E A} _ _.
Arguments bind {E A B} _ _ _.

(** A call of [select_test_subset]: its body has no [raise] and every
    operation in it is defined on all lists, strings and integers, so the
    call returns. *)
Definition call_select_test_subset (test_data : list TestCase) (count : Z)
  : py_exn + list TestCase :=
  inr (select_test_subset test_data count).

(** A call raises when its result is an exception. *)
Definition raises {A} (r : py_exn + A) : Prop := exists e, r = inl e.

(** ** The outcome of an execution, as the specification names it *)

Inductive ExecutionOutcome :=
| Success (payload : pyval)
| Failure (error_message : pyval).

Definition outcome_of (r : bool * pyval) : ExecutionOutcome :=
  if r.1 then Success r.2 else Failure r.2.

(** The four cases of the per-case execution accuracy. *)
Definition accuracy_of_outcomes (predicted reference : ExecutionOutcome) : Q :=
  match predicted, reference with
  | Success p, Success r => if py_eqb p r then 1%Q else 0%Q
  | Failure _, Failure _ => 1%Q
  | Success _, Failure _ => 0%Q
  | Failure _, Success _ => 0%Q
  end.


Definition is_connect (ev : event) : bool :=
  match ev with EvConnect => true | _ => false end.

Definition is_close (ev : event) : bool :=
  match ev with EvClose => true | _ => false end.

Definition is_commit (ev : event) : bool :=
  match ev with EvCommit => true | _ => false end.

Definition count_events (f : event -> bool) (l : list event) : nat :=
  length (List.filter f l).

(** ** A small engine for concrete runs

    One table [t (id INTEGER PRIMARY KEY)], which exists or not, and six
    statements with the behaviour SQLite has on them.  [sqlite3.connect]
    and [commit] succeed. *)

Module MiniDb.

(** [None]: the table does not exist; [Some ids]: its rows. *)
Definition db : Type := option (list Z).

Definition operational (msg : string) : py_exn :=
  {| exn_kind := OperationalError; exn_message := lit msg |}.

Definition no_cursor : cursor :=
  {| cur_fetchall := inr []; cur_rowcount := -1 |}.

Definition next_id (ids : list Z) : Z := foldr Z.max 0 ids + 1.

Definition execute (sql : str) (d : db) : py_exn + (cursor * db) :=
  if str_eqb sql (lit "SELECT 1") then
    inr ({| cur_fetchall := inr [[SqlInt 1]]; cur_rowcount := -1 |}, d)
  else if str_eqb sql (lit "SELECT id FROM t") then
    match d with
    | None => inl (operational "no such table: t")
    | Some ids =>
        inr ({| cur_fetchall := inr (map (fun i => [SqlInt i]) ids);
                cur_rowcount := -1 |}, d)
    end
  else if str_eqb sql (lit "CREATE TABLE t (id INTEGER PRIMARY KEY)") then
    match d with
    | None => inr (no_cursor, Some [])
    | Some _ => inl (operational "table t already exists")
    end
  else if str_eqb sql (lit "INSERT INTO t VALUES (1)") then
    match d with
    | None => inl (operational "no such table: t")
    | Some ids =>
        if bool_decide (1 ∈ ids)
        then inl {| exn_kind := IntegrityError;
                    exn_message := lit "UNIQUE constraint failed: t.id" |}
        else inr ({| cur_fetchall := inr []; cur_rowcount := 1 |},
                  Some (ids ++ [1]))
    end
  else if str_eqb sql (lit "INSERT INTO t DEFAULT VALUES") then
    match d with
    | None => inl (operational "no such table: t")
    | Some ids =>
        inr ({| cur_fetchall := inr []; cur_rowcount := 1 |},
             Some (ids ++ [next_id ids]))
    end
  else if str_eqb sql (lit "DELETE FROM t") then
    match d with
    | None => inl (operational "no such table: t")
    | Some ids =>
        inr ({| cur_fetchall := inr []; cur_rowcount := len ids |}, Some [])
    end
  else inl (operational "syntax error").

Definition engine : Engine :=
  {| DB := db;
     eng_connect := fun _ => None;
     eng_execute := execute;
     eng_commit := fun _ => None |}.

(** A world with nothing open and an empty trace. *)
Definition world (d : db) : World engine :=
  Build_World engine d 0 [].

(** A collaborator that answers every question with the same statement. *)
Definition always (answer : string) : str -> str := fun _ => lit answer.

End MiniDb.

(** The corpus of the worked example: ten SELECT, three INSERT, three
    UPDATE and two DELETE cases, interleaved. *)
Definition case_of (q s : string) : TestCase :=
  {| question := lit q; sql := lit s |}.

Definition S_ (n : string) : TestCase := case_of n (String.append "SELECT " n).
Definition I_ (n : string) : TestCase :=
  case_of n (String.append "insert into t values (" (String.append n ")")).
Definition U_ (n : string) : TestCase := case_of n (String.append "  UPDATE t SET x = " n).
Definition D_ (n : string) : TestCase := case_of n (String.append "Delete from t where x = " n).

Definition example_corpus : list TestCase :=
  [ S_ "1"; I_ "1"; S_ "2"; U_ "1"; S_ "3"; D_ "1"; S_ "4"; I_ "2"; S_ "5";
    U_ "2"; S_ "6"; D_ "2"; S_ "7"; I_ "3"; S_ "8"; U_ "3"; S_ "9"; S_ "10" ].

(** ** The rest of the evaluator and its callers *)

(** [s.replace(old, new)] for a non-empty [old]: the occurrences of [old]
    are found from left to right without overlap.  [skip] counts the
    characters of the current occurrence still to be passed over. *)
Fixpoint py_replace_from (skip : nat) (old new s : str) : str :=
  match s with
  | [] => []
  | c :: t =>
      match skip with
      | S k => py_replace_from k old new t
      | O =>
          if startswith s old
          then new ++ py_replace_from (length old - 1) old new t
          else c :: py_replace_from 0 old new t
      end
  end.

Definition py_replace (old new s : str) : str := py_replace_from 0 old new s.

Definition backtick : ascii := "096"%char.

(** The fence markers [generate_sql] removes: three backticks followed by
    [sql], and three backticks. *)
Definition fence : str := [backtick; backtick; backtick].
Definition fence_sql : str := fence ++ lit "sql".

(** [SakilaText2SQLEvaluator.generate_sql].  [complete question] is what
    the completion service answers to the prompt built around [question]:
    the text of the first choice, or the exception of the call.  Any
    exception gives the empty string. *)
Definition generate_sql_with (complete : str -> py_exn + str) (question : str)
  : str :=
  match complete question with
  | inr content =>
      let sql := strip content in
      let sql := strip (py_replace fence [] (py_replace fence_sql [] sql)) in
      sql
  | inl e => []
  end.

(** [sub in s] *)
Fixpoint contains_sub (sub s : str) : bool :=
  match s with
  | [] => startswith [] sub
  | _ :: t => startswith s sub || contains_sub sub t
  end.

Definition is_ascii (c : ascii) : bool := (code c <? 128)%nat.

Definition is_ascii_upper (c : ascii) : bool :=
  ((65 <=? code c) && (code c <=? 90))%nat.

(** Two whitespace characters in a row somewhere in [s]. *)
Fixpoint has_adjacent_spaces (s : str) : bool :=
  match s with
  | c :: t =>
      match t with
      | d :: _ => (isspace c && isspace d) || has_adjacent_spaces t
      | [] => false
      end
  | [] => false
  end.

Definition starts_with_space (s : str) : bool :=
  match s with
  | c :: _ => isspace c
  | [] => false
  end.

(** The number of matched elements in a list of blocks, and the number of
    elements of [b] still to be matched in a queue. *)
Definition blocks_size (blocks : list (nat * nat * nat)) : nat :=
  list_sum (map (fun t : nat * nat * nat => t.2) blocks).

Definition queue_size_b (queue : list (nat * nat * nat * nat)) : nat :=
  list_sum (map (fun r : nat * nat * nat * nat => (r.2 - r.1.2)%nat) queue).

(** The counters of [EvaluationVisualizer.create_error_analysis], in the
    order of its dictionary: fully correct, SQL syntax error, executed
    with a wrong result, execution failed. *)
Record ErrorTypes := {
  fully_correct : nat;
  syntax_error : nat;
  wrong_result : nat;
  execution_failed : nat
}.

(** The body of the loop over [self.results['detailed_results']]. *)
Definition count_result (error_types : ErrorTypes) (result : CaseResult)
  : ErrorTypes :=
  if Qeq_bool (cr_exact_match result) 1 then
    {| fully_correct := S (fully_correct error_types);
       syntax_error := syntax_error error_types;
       wrong_result := wrong_result error_types;
       execution_failed := execution_failed error_types |}
  else if negb (cr_is_executable result) then
    {| fully_correct := fully_correct error_types;
       syntax_error := S (syntax_error error_types);
       wrong_result := wrong_result error_types;
       execution_failed := execution_failed error_types |}
  else if cr_is_executable result
          && Qeq_bool (cr_execution_accuracy result) 0 then
    {| fully_correct := fully_correct error_types;
       syntax_error := syntax_error error_types;
       wrong_result := S (wrong_result error_types);
       execution_failed := execution_failed error_types |}
  else
    {| fully_correct := fully_correct error_types;
       syntax_error := syntax_error error_types;
       wrong_result := wrong_result error_types;
       execution_failed := S (execution_failed error_types) |}.

(** The counting loop of [create_error_analysis]; the chart drawn from
    the counters is left out. *)
Definition error_types (detailed_results : list CaseResult) : ErrorTypes :=
  fold_left count_result detailed_results
    {| fully_correct := 0; syntax_error := 0; wrong_result := 0;
       execution_failed := 0 |}.

Definition is_execute (ev : event) : bool :=
  match ev with EvExecute _ => true | _ => false end.

(** [main] of the evaluator script and [RunFullEvaluation] of the
    example runner: a sample of 25 cases is evaluated; printing and saving
    the report are left out. *)
Definition main_evaluation (E : Engine) (generate_sql : str -> str)
  (test_data : list TestCase) : Py E Report :=
  let test_subset := select_test_subset test_data 25 in
  evaluate_dataset E generate_sql test_subset.

(** The loop of [EvaluationVisualizer.generate_detailed_report] that
    sorts the detailed results into error samples and perfect samples,
    each with its number counted from 1 ([enumerate] and [i+1]). *)
Fixpoint classify_samples (i : nat) (results : list CaseResult)
  (error_samples perfect_samples : list (nat * CaseResult))
  : list (nat * CaseResult) * list (nat * CaseResult) :=
  match results with
  | [] => (error_samples, perfect_samples)
  | result :: rest =>
      if Qeq_bool (cr_exact_match result) 0
         || Qeq_bool (cr_execution_accuracy result) 0
      then classify_samples (S i) rest
             (error_samples ++ [((i + 1)%nat, result)]) perfect_samples
      else if Qeq_bool (cr_exact_match result) 1
      then classify_samples (S i) rest
             error_samples (perfect_samples ++ [((i + 1)%nat, result)])
      else classify_samples (S i) rest error_samples perfect_samples
  end.

Definition error_samples (detailed_results : list CaseResult)
  : list (nat * CaseResult) :=
  (classify_samples 0 detailed_results [] []).1.

Definition perfect_samples (detailed_results : list CaseResult)
  : list (nat * CaseResult) :=
  (classify_samples 0 detailed_results [] []).2.

(** Equality of corpus records is decidable. *)
#[global] Instance TestCase_eq_dec : EqDecision TestCase.
Proof. solve_decision. Defined.

(** * Properties *)

(** ** The normalizer *)

Section StripFacts.

Variable p : ascii -> bool.

Lemma rstrip_by_cons c t :
  rstrip_by p (c :: t)
  = match rstrip_by p t with
    | [] => if p c then [] else [c]
    | t' => c :: t'
    end.
Proof. reflexivity. Qed.

Lemma rstrip_by_cons_keep c t :
  p c = false -> rstrip_by p (c :: t) = c :: rstrip_by p t.
Proof.
  intros Hc. simpl. rewrite Hc. destruct (rstrip_by p t); reflexivity.
Qed.

Lemma rstrip_by_nil_iff t : rstrip_by p t = [] <-> forallb p t = true.
Proof.
  induction t as [|c t IH]; simpl.
  - tauto.
  - destruct (rstrip_by p t) eqn:Hr.
    + destruct (p c); simpl; split; intros H; try discriminate.
      * apply IH. reflexivity.
      * reflexivity.
    + split; intros H; [discriminate|].
      apply andb_prop in H as [_ H]. apply IH in H. discriminate.
Qed.

Lemma rstrip_by_idempotent t : rstrip_by p (rstrip_by p t) = rstrip_by p t.
Proof.
  induction t as [|c t IH]; simpl; [reflexivity|].
  destruct (rstrip_by p t) as [|d u] eqn:Hr.
  - destruct (p c) eqn:Hc; simpl; [reflexivity|]. rewrite Hc. reflexivity.
  - rewrite rstrip_by_cons, IH. reflexivity.
Qed.

Lemma rstrip_by_last t c : last (rstrip_by p t) = Some c -> p c = false.
Proof.
  induction t as [|d t IH]; simpl; [discriminate|].
  destruct (rstrip_by p t) as [|x u] eqn:Hr.
  - destruct (p d) eqn:Hd; simpl; [discriminate|].
    intros [= <-]. exact Hd.
  - intros H. apply IH. exact H.
Qed.

End StripFacts.

Lemma isspace_space : isspace " "%char = true.
Proof. reflexivity. Qed.

Lemma re_sub_ws_from_nil r u :
  re_sub_ws_from r u = [] -> forallb isspace u = true.
Proof.
  revert r. induction u as [|c u IH]; intros r; simpl; [reflexivity|].
  destruct (isspace c) eqn:Hc; simpl.
  - destruct r; [apply IH | discriminate].
  - discriminate.
Qed.

Lemma lstrip_re_sub_ws r t :
  lstrip_by isspace (re_sub_ws_from r t)
  = re_sub_ws_from false (lstrip_by isspace t).
Proof.
  revert r. induction t as [|c t IH]; intros r; simpl; [reflexivity|].
  destruct (isspace c) eqn:Hc.
  - destruct r; simpl; rewrite ?isspace_space; apply IH.
  - simpl. rewrite Hc. reflexivity.
Qed.

Lemma re_sub_ws_from_cons r c t :
  re_sub_ws_from r (c :: t)
  = if isspace c
    then (if r then re_sub_ws_from true t else " "%char :: re_sub_ws_from true t)
    else c :: re_sub_ws_from false t.
Proof. reflexivity. Qed.

Lemma re_sub_ws_rstrip r t :
  re_sub_ws_from r (rstrip_by isspace t)
  = rstrip_by isspace (re_sub_ws_from r t).
Proof.
  revert r. induction t as [|c t IH]; intros r; [reflexivity|].
  destruct (isspace c) eqn:Hc.
  - rewrite rstrip_by_cons, (re_sub_ws_from_cons r c t), Hc.
    destruct (rstrip_by isspace t) as [|d u] eqn:Hr.
    + specialize (IH true). simpl in IH.
      destruct r; [simpl; congruence|].
      rewrite rstrip_by_cons, <- IH. reflexivity.
    + assert (Hne : re_sub_ws_from true (d :: u) <> []).
      { intros Hnil. apply re_sub_ws_from_nil in Hnil.
        rewrite <- Hr in Hnil. apply rstrip_by_nil_iff in Hnil.
        rewrite rstrip_by_idempotent, Hr in Hnil. discriminate. }
      rewrite re_sub_ws_from_cons, Hc.
      destruct r; [apply IH|].
      rewrite rstrip_by_cons, <- IH.
      destruct (re_sub_ws_from true (d :: u)); [congruence | reflexivity].
  - rewrite (rstrip_by_cons_keep _ _ _ Hc), !re_sub_ws_from_cons, Hc.
    rewrite (rstrip_by_cons_keep _ _ _ Hc), IH. reflexivity.
Qed.

Lemma re_sub_ws_strip t : re_sub_ws (strip t) = strip (re_sub_ws t).
Proof.
  unfold re_sub_ws, strip.
  rewrite re_sub_ws_rstrip, lstrip_re_sub_ws. reflexivity.
Qed.

Lemma last_replace_dquote s c :
  last (replace_dquote s) = Some c ->
  exists d, last s = Some d /\ c = (if Ascii.eqb d dquote then squote else d).
Proof.
  unfold replace_dquote.
  induction s as [|x s IH]; simpl; [discriminate|].
  destruct s as [|y s'].
  - simpl. intros [= <-]. eexists; split; reflexivity.
  - intros H. apply IH. exact H.
Qed.

Lemma normalize_sql_no_trailing_semicolon s :
  last (normalize_sql s) <> Some semicolon.
Proof.
  unfold normalize_sql. intros H.
  apply last_replace_dquote in H as (d & Hd & Heq).
  apply rstrip_by_last in Hd. unfold is_semicolon in Hd.
  destruct (Ascii.eqb d dquote) eqn:Hq.
  - discriminate.
  - subst d. vm_compute in Hd. discriminate.
Qed.

(** C3, at the failing input: normalizing [SELECT 1 ;] leaves a trailing
    space, which a second normalization removes, so the two results
    differ. *)
Theorem normalize_sql_twice_differs :
  normalize_sql (lit "SELECT 1 ;") = lit "select 1 "
  /\ normalize_sql (normalize_sql (lit "SELECT 1 ;")) = lit "select 1"
  /\ normalize_sql (lit "SELECT 1 ;")
     <> normalize_sql (normalize_sql (lit "SELECT 1 ;")).
Proof. vm_compute. repeat split; intros; discriminate. Qed.

(** C4, the claim as stated fails: an input ending in two semicolons keeps
    none of them, whereas stripping a single one would keep one. *)
Lemma normalize_sql_two_semicolons :
  normalize_sql (lit "SELECT 1;;") = lit "select 1"
  /\ normalize_stated (lit "SELECT 1;;") = lit "select 1;"
  /\ normalize_sql (lit "SELECT 1;;") <> normalize_stated (lit "SELECT 1;;").
Proof. vm_compute. repeat split; intros; discriminate. Qed.

(** C4 as amended: on every input [normalize_sql] is the composition, in
    this order, of lowercasing, collapsing whitespace runs to one space,
    trimming, stripping the whole trailing run of semicolons and replacing
    double quotes by single quotes; its result never ends in a semicolon. *)
Theorem normalize_sql_by_steps :
  forall s : str,
    normalize_sql s = normalize_by_steps s
    /\ last (normalize_sql s) <> Some semicolon.
Proof.
  intros s. split.
  - unfold normalize_sql, normalize_by_steps.
    rewrite re_sub_ws_strip. reflexivity.
  - apply normalize_sql_no_trailing_semicolon.
Qed.

(** ** The executor *)

Section ExecutorFacts.

Variable E : Engine.

Ltac run_execute_sql :=
  unfold execute_sql, connect, execute_sql_body, bind, cursor_execute,
    fetchall, conn_commit, conn_close, ret, emit; simpl.

(** The read path when nothing fails. *)
Lemma execute_sql_select_ok (sql : str) (w : World E) cur db' rows :
  sql_startswith "SELECT" sql = true ->
  eng_connect E (disk w) = None ->
  eng_execute E sql (disk w) = inr (cur, db') ->
  cur_fetchall cur = inr rows ->
  execute_sql E sql w
  = (inr (true, Rows rows),
     Build_World E (disk w) (open_conns w)
       (log w ++ [EvConnect; EvExecute sql; EvFetchall; EvClose])).
Proof.
  intros Hsel Hconn Hexec Hfetch. run_execute_sql.
  rewrite Hconn, Hsel. simpl. rewrite Hexec. simpl. rewrite Hfetch. simpl.
  rewrite <- !app_assoc. reflexivity.
Qed.

(** The other path when nothing fails. *)
Lemma execute_sql_other_ok (sql : str) (w : World E) cur db' :
  sql_startswith "SELECT" sql = false ->
  eng_connect E (disk w) = None ->
  eng_execute E sql (disk w) = inr (cur, db') ->
  eng_commit E db' = None ->
  execute_sql E sql w
  = (inr (true, Int (cur_rowcount cur)),
     Build_World E db' (open_conns w)
       (log w ++ [EvConnect; EvExecute sql; EvCommit; EvClose])).
Proof.
  intros Hsel Hconn Hexec Hcommit. run_execute_sql.
  rewrite Hconn, Hsel. simpl. rewrite Hexec. simpl. rewrite Hcommit. simpl.
  rewrite <- !app_assoc. reflexivity.
Qed.

(** [execute_sql] returns on every statement and every world. *)
Lemma execute_sql_returns (sql : str) (w : World E) :
  exists r w', execute_sql E sql w = (inr r, w').
Proof.
  run_execute_sql.
  destruct (eng_connect E (disk w)); [eauto|].
  destruct (sql_startswith "SELECT" sql); simpl;
    destruct (eng_execute E sql (disk w)) as [e|[cur db']]; simpl; eauto.
  - destruct (cur_fetchall cur); simpl; eauto.
  - destruct (eng_commit E db'); simpl; eauto.
Qed.


(** C8: the statement is classified by whether its trimmed, upper-cased
    text starts with SELECT.  If it does and nothing fails, the call
    returns [True] with all the rows [fetchall] yields, in their order,
    and makes no commit: the database is what it was.  Otherwise, if
    nothing fails, the statement is executed, the transaction committed,
    and the call returns [True] with [cursor.rowcount]. *)
Theorem execute_sql_classification :
  forall (sql : str) (w : World E) cur db',
    eng_connect E (disk w) = None ->
    eng_execute E sql (disk w) = inr (cur, db') ->
    (sql_startswith "SELECT" sql = true ->
     forall rows, cur_fetchall cur = inr rows ->
       execute_sql E sql w
       = (inr (true, Rows rows),
          Build_World E (disk w) (open_conns w)
            (log w ++ [EvConnect; EvExecute sql; EvFetchall; EvClose])))
    /\ (sql_startswith "SELECT" sql = false ->
        eng_commit E db' = None ->
        execute_sql E sql w
        = (inr (true, Int (cur_rowcount cur)),
           Build_World E db' (open_conns w)
             (log w ++ [EvConnect; EvExecute sql; EvCommit; EvClose]))).
Proof.
  intros sql w cur db' Hconn Hexec. split.
  - intros Hsel rows Hfetch. eapply execute_sql_select_ok; eauto.
  - intros Hsel Hcommit. eapply execute_sql_other_ok; eauto.
Qed.

End ExecutorFacts.

(** On the small engine: a SELECT returns its two rows and leaves the
    table alone; a DELETE is committed and returns the count 2. *)
Lemma execute_sql_classification_witness :
  execute_sql MiniDb.engine (lit "SELECT id FROM t") (MiniDb.world (Some [1; 2]))
  = (inr (true, Rows [[SqlInt 1]; [SqlInt 2]]),
     Build_World MiniDb.engine (Some [1; 2]) 0
       [EvConnect; EvExecute (lit "SELECT id FROM t"); EvFetchall; EvClose])
  /\ execute_sql MiniDb.engine (lit "DELETE FROM t") (MiniDb.world (Some [1; 2]))
     = (inr (true, Int 2),
        Build_World MiniDb.engine (Some []) 0
          [EvConnect; EvExecute (lit "DELETE FROM t"); EvCommit; EvClose]).
Proof.
  split.
  - apply (proj1 (execute_sql_classification MiniDb.engine
                    (lit "SELECT id FROM t") (MiniDb.world (Some [1; 2]))
                    _ _ eq_refl eq_refl)); reflexivity.
  - apply (proj2 (execute_sql_classification MiniDb.engine
                    (lit "DELETE FROM t") (MiniDb.world (Some [1; 2]))
                    _ _ eq_refl eq_refl)); reflexivity.
Defined.

(** ** The case evaluator *)


Lemma str_eqb_refl (s : str) : str_eqb s s = true.
Proof. unfold str_eqb. apply bool_decide_eq_true. reflexivity. Qed.




Section CaseEvaluatorFacts.

Variable E : Engine.
Variable generate_sql : str -> str.

(** [execution_accuracy] runs the predicted statement, then the reference
    statement, and scores the two results. *)
Lemma execution_accuracy_runs (predicted_sql reference_sql : str) (w : World E) :
  exists r1 w1 r2 w2,
    execute_sql E predicted_sql w = (inr r1, w1)
    /\ execute_sql E reference_sql w1 = (inr r2, w2)
    /\ execution_accuracy E predicted_sql reference_sql w
       = (inr (accuracy_of_outcomes (outcome_of r1) (outcome_of r2)), w2).
Proof.
  destruct (execute_sql_returns E predicted_sql w) as ([ok1 v1] & w1 & H1).
  destruct (execute_sql_returns E reference_sql w1) as ([ok2 v2] & w2 & H2).
  exists (ok1, v1), w1, (ok2, v2), w2. repeat split; try assumption.
  unfold execution_accuracy, bind. rewrite H1, H2.
  unfold outcome_of, accuracy_of_outcomes, ret. simpl.
  destruct ok1, ok2; simpl; try reflexivity.
  destruct (py_eqb v1 v2); reflexivity.
Qed.


(** [evaluate_single_query] is three executions in a row. *)
Lemma evaluate_single_query_runs (question reference_sql : str) (w : World E) :
  exists r1 w1 r2 w2 r3 w3 res,
    execute_sql E (generate_sql question) w = (inr r1, w1)
    /\ execute_sql E reference_sql w1 = (inr r2, w2)
    /\ execute_sql E (generate_sql question) w2 = (inr r3, w3)
    /\ evaluate_single_query E generate_sql question reference_sql w
       = (inr res, w3)
    /\ cr_execution_accuracy res
       = accuracy_of_outcomes (outcome_of r1) (outcome_of r2)
    /\ cr_is_executable res = r3.1
    /\ cr_execution_result res = r3.2.
Proof.
  destruct (execution_accuracy_runs (generate_sql question) reference_sql w)
    as (r1 & w1 & r2 & w2 & H1 & H2 & Hacc).
  destruct (execute_sql_returns E (generate_sql question) w2)
    as ([ok3 v3] & w3 & H3).
  eexists r1, w1, r2, w2, (ok3, v3), w3, _.
  split; [exact H1|]. split; [exact H2|]. split; [exact H3|].
  unfold evaluate_single_query, bind. rewrite Hacc, H3. unfold ret.
  split; [reflexivity|]. simpl. repeat split.
Qed.

End CaseEvaluatorFacts.

(** C10: one call of [evaluate_single_query] runs [execute_sql] on the
    predicted statement, then on the reference statement, then on the
    predicted statement again; the accuracy is scored from the first two
    results and [is_executable] is read from the third.  When the predicted
    statement is not a SELECT and runs without error both times, each of
    its two runs has its own connection and its own commit, the second one
    acting on the database the first one (and the reference statement) left
    behind.  And there is a database and a predicted statement whose first
    run succeeds while [is_executable] comes out false. *)
Theorem evaluate_single_query_runs_predicted_twice :
  (forall (E : Engine) (generate_sql : str -> str)
          (question reference_sql : str) (w : World E),
      exists r1 w1 r2 w2 r3 w3 res,
        execute_sql E (generate_sql question) w = (inr r1, w1)
        /\ execute_sql E reference_sql w1 = (inr r2, w2)
        /\ execute_sql E (generate_sql question) w2 = (inr r3, w3)
        /\ evaluate_single_query E generate_sql question reference_sql w
           = (inr res, w3)
        /\ cr_execution_accuracy res
           = accuracy_of_outcomes (outcome_of r1) (outcome_of r2)
        /\ cr_is_executable res = r3.1)
  /\ (forall (E : Engine) (generate_sql : str -> str)
             (question reference_sql : str) (w : World E)
             c1 d1 r2 w2 c3 d3,
        let predicted_sql := generate_sql question in
        let once := [EvConnect; EvExecute predicted_sql; EvCommit; EvClose] in
        sql_startswith "SELECT" predicted_sql = false ->
        eng_connect E (disk w) = None ->
        eng_execute E predicted_sql (disk w) = inr (c1, d1) ->
        eng_commit E d1 = None ->
        execute_sql E reference_sql
          (Build_World E d1 (open_conns w) (log w ++ once)) = (inr r2, w2) ->
        eng_connect E (disk w2) = None ->
        eng_execute E predicted_sql (disk w2) = inr (c3, d3) ->
        eng_commit E d3 = None ->
        exists res,
          evaluate_single_query E generate_sql question reference_sql w
          = (inr res, Build_World E d3 (open_conns w2) (log w2 ++ once))
          /\ cr_is_executable res = true)
  /\ (let predicted_sql := "INSERT INTO t VALUES (1)"%string in
      let w := MiniDb.world (Some []) in
      exists w1 res w3,
        execute_sql MiniDb.engine (lit predicted_sql) w = (inr (true, Int 1), w1)
        /\ evaluate_single_query MiniDb.engine (MiniDb.always predicted_sql)
             (lit "add a row") (lit "SELECT id FROM t") w
           = (inr res, w3)
        /\ cr_is_executable res = false).
Proof.
  split; [|split].
  - intros E generate_sql question reference_sql w.
    destruct (evaluate_single_query_runs E generate_sql question reference_sql w)
      as (r1 & w1 & r2 & w2 & r3 & w3 & res & H1 & H2 & H3 & Hev & Hacc & Hex & _).
    exists r1, w1, r2, w2, r3, w3, res. repeat split; assumption.
  - intros E generate_sql question reference_sql w c1 d1 r2 w2 c3 d3
      predicted_sql once Hsel Hc1 He1 Hm1 Href Hc3 He3 Hm3.
    destruct (evaluate_single_query_runs E generate_sql question reference_sql w)
      as (r1 & w1 & r2' & w2' & r3 & w3 & res & H1 & H2 & H3 & Hev & Hacc & Hex & _).
    fold predicted_sql in H1, H3.
    rewrite (execute_sql_other_ok E _ _ _ _ Hsel Hc1 He1 Hm1) in H1.
    injection H1 as <- <-.
    fold once in H2. rewrite Href in H2. injection H2 as <- <-.
    rewrite (execute_sql_other_ok E _ _ _ _ Hsel Hc3 He3 Hm3) in H3.
    injection H3 as <- <-.
    exists res. split; [exact Hev | exact Hex].
  - vm_compute. eexists _, _, _. repeat split.
Qed.

(** On the small engine: one evaluation of a predicted INSERT leaves two
    new rows behind. *)
Lemma evaluate_single_query_runs_predicted_twice_witness :
  exists res,
    evaluate_single_query MiniDb.engine
      (MiniDb.always "INSERT INTO t DEFAULT VALUES")
      (lit "add a row") (lit "SELECT id FROM t") (MiniDb.world (Some []))
    = (inr res,
       Build_World MiniDb.engine (Some [1; 2]) 0
         ([EvConnect; EvExecute (lit "INSERT INTO t DEFAULT VALUES");
           EvCommit; EvClose]
          ++ [EvConnect; EvExecute (lit "SELECT id FROM t"); EvFetchall; EvClose]
          ++ [EvConnect; EvExecute (lit "INSERT INTO t DEFAULT VALUES");
              EvCommit; EvClose]))
    /\ cr_is_executable res = true.
Proof.
  apply (proj1 (proj2 evaluate_single_query_runs_predicted_twice)
           MiniDb.engine (MiniDb.always "INSERT INTO t DEFAULT VALUES")
           (lit "add a row") (lit "SELECT id FROM t") (MiniDb.world (Some []))
           {| cur_fetchall := inr []; cur_rowcount := 1 |} (Some [1])
           (true, Rows [[SqlInt 1]])
           (Build_World MiniDb.engine (Some [1]) 0
              [EvConnect; EvExecute (lit "INSERT INTO t DEFAULT VALUES");
               EvCommit; EvClose;
               EvConnect; EvExecute (lit "SELECT id FROM t"); EvFetchall; EvClose])
           {| cur_fetchall := inr []; cur_rowcount := 1 |} (Some [1; 2]));
    reflexivity.
Defined.

(** ** The corpus sampler *)

Lemma take_min_length {A} (l : list A) (k : nat) :
  take (Nat.min k (length l)) l = take k l.
Proof.
  destruct (Nat.le_ge_cases k (length l)) as [H|H].
  - rewrite Nat.min_l by exact H. reflexivity.
  - rewrite Nat.min_r by exact H. rewrite !take_ge; [reflexivity | exact H | lia].
Qed.

(** A slice with bounds inside the list. *)
Lemma py_slice_nonneg {A} (l : list A) (lo hi : Z) :
  0 <= lo <= len l -> lo <= hi ->
  py_slice l lo hi = take (Z.to_nat (hi - lo)) (drop (Z.to_nat lo) l).
Proof.
  unfold py_slice, clamp_index, len. intros Hlo Hhi.
  destruct (Z.ltb_spec lo 0); [lia|].
  destruct (Z.ltb_spec hi 0); [lia|].
  rewrite (Z.min_l lo) by lia.
  rewrite <- (take_min_length (drop (Z.to_nat lo) l) (Z.to_nat (hi - lo))).
  rewrite <- (take_min_length (drop (Z.to_nat lo) l)
                (Z.to_nat (Z.min hi (Z.of_nat (length l)) - lo))).
  f_equal. rewrite length_drop. lia.
Qed.

Lemma py_slice_to_nonneg {A} (l : list A) (k : Z) :
  0 <= k -> py_slice_to l k = first_n k l.
Proof.
  intros Hk. unfold py_slice_to, first_n, py_slice, clamp_index.
  simpl (0 <? 0). cbv iota.
  destruct (Z.ltb_spec k 0); [lia|].
  rewrite (Z.min_l 0) by lia. simpl (Z.to_nat 0). rewrite drop_0, Z.sub_0_r.
  rewrite <- (take_min_length l (Z.to_nat k)).
  rewrite <- (take_min_length l (Z.to_nat (Z.min k (Z.of_nat (length l))))).
  f_equal. lia.
Qed.

Lemma py_slice_to_0 {A} (l : list A) : py_slice_to l 0 = [].
Proof. rewrite py_slice_to_nonneg by lia. reflexivity. Qed.




(** ** The aggregator *)

(** C2, the claim as stated fails: aggregating no cases returns a report,
    and sampling with the count 0 or -1 returns a selection; none of the
    three calls raises. *)
Lemma empty_and_nonpositive_do_not_raise :
  ~ raises (evaluate_dataset MiniDb.engine (MiniDb.always "SELECT 1") []
              (MiniDb.world None)).1
  /\ ~ raises (call_select_test_subset example_corpus 0)
  /\ ~ raises (call_select_test_subset example_corpus (-1)).
Proof. repeat split; intros [e He]; vm_compute in He; discriminate. Qed.

(** C2 as amended: neither call raises.  Aggregating the empty sequence
    returns, without any database call, the report with no samples, no
    detailed results and a not-a-number for each of the four means;
    sampling with the count 0 returns the empty selection. *)
Theorem empty_inputs_return_defaults :
  (forall (E : Engine) (generate_sql : str -> str) (w : World E),
      evaluate_dataset E generate_sql [] w
      = (inr {| total_samples := 0;
                exact_match_accuracy := NaN;
                average_similarity := NaN;
                rp_execution_accuracy := NaN;
                execution_success_rate := NaN;
                detailed_results := [] |}, w))
  /\ (forall corpus : list TestCase,
         call_select_test_subset corpus 0 = inr []).
Proof.
  split.
  - intros E generate_sql w. reflexivity.
  - intros corpus. unfold call_select_test_subset, select_test_subset.
    f_equal.
    destruct (Z.geb_spec 0 (len corpus)) as [Hge|Hlt].
    + destruct corpus as [|c corpus]; [reflexivity|].
      unfold len in Hge. rewrite length_cons in Hge. exfalso. lia.
    + cbv zeta. apply py_slice_to_0.
Qed.

(** ** The matcher *)

Module DifflibFacts.
Import Difflib.

Lemma positions_ge c i b j : j ∈ positions c i b -> (i <= j)%nat.
Proof.
  revert i. induction b as [|x t IH]; intros i; simpl.
  - intros H. inversion H.
  - destruct (Ascii.eqb x c).
    + rewrite elem_of_cons. intros [->|H]; [lia|]. apply IH in H. lia.
    + intros H. apply IH in H. lia.
Qed.

Lemma positions_lookup c i b j :
  j ∈ positions c i b -> b !! (j - i)%nat = Some c.
Proof.
  revert i. induction b as [|x t IH]; intros i; simpl.
  - intros H. inversion H.
  - destruct (Ascii.eqb x c) eqn:Hx.
    + rewrite elem_of_cons. intros [->|H].
      * rewrite Nat.sub_diag. simpl. apply Ascii.eqb_eq in Hx. congruence.
      * pose proof (positions_ge _ _ _ _ H). apply IH in H.
        replace (j - i)%nat with (S (j - S i)) by lia. exact H.
    + intros H. pose proof (positions_ge _ _ _ _ H). apply IH in H.
      replace (j - i)%nat with (S (j - S i)) by lia. exact H.
Qed.

(** The occurrences of [b[k]] split around [k]: smaller ones first. *)
Lemma positions_split c i b k :
  b !! k = Some c ->
  exists l1 l2,
    positions c i b = l1 ++ (i + k)%nat :: l2
    /\ (forall j, j ∈ l1 -> (j < i + k)%nat)
    /\ (forall j, j ∈ l2 -> (i + k < j)%nat).
Proof.
  revert i k. induction b as [|x t IH]; intros i k Hk; [discriminate|].
  destruct k as [|k]; simpl in Hk.
  - injection Hk as ->. simpl. rewrite Ascii.eqb_refl.
    exists [], (positions c (S i) t). rewrite Nat.add_0_r.
    split; [reflexivity|]. split.
    + intros j Hj. inversion Hj.
    + intros j Hj. apply positions_ge in Hj. lia.
  - destruct (IH (S i) k Hk) as (l1 & l2 & Heq & H1 & H2).
    replace (S i + k)%nat with (i + S k)%nat in * by lia.
    simpl. destruct (Ascii.eqb x c).
    + exists (i :: l1), l2. rewrite Heq. split; [reflexivity|]. split.
      * intros j. rewrite elem_of_cons. intros [->|Hj]; [lia | auto].
      * exact H2.
    + exists l1, l2. auto.
Qed.

Lemma index_elements_lookup b i (m : gmap ascii (list nat)) c :
  index_elements i b m !! c
  = match positions c i b with
    | [] => m !! c
    | ps => Some (default [] (m !! c) ++ ps)
    end.
Proof.
  revert i m. induction b as [|x t IH]; intros i m; simpl; [reflexivity|].
  rewrite IH. destruct (Ascii.eqb x c) eqn:Hx.
  - apply Ascii.eqb_eq in Hx. subst x. rewrite lookup_insert_eq. simpl.
    destruct (positions c (S i) t); [reflexivity|].
    rewrite <- app_assoc. reflexivity.
  - assert (x <> c) by (intros ->; rewrite Ascii.eqb_refl in Hx; discriminate).
    rewrite lookup_insert_ne by assumption. reflexivity.
Qed.

(** What [chain_b] keeps for an element is the list of its positions. *)
Lemma chain_b_lookup b c idxs :
  chain_b b !! c = Some idxs -> idxs = positions c 0 b.
Proof.
  unfold chain_b. intros H. apply map_lookup_filter_Some in H as [H _].
  rewrite index_elements_lookup, lookup_empty in H.
  destruct (positions c 0 b); [discriminate|].
  simpl in H. congruence.
Qed.

Ltac case_ltb :=
  match goal with
  | |- context [(?a <? ?b)%nat] => destruct (Nat.ltb_spec a b)
  end.

Ltac case_leb :=
  match goal with
  | |- context [(?a <=? ?b)%nat] => destruct (Nat.leb_spec a b)
  end.

Lemma scan_row_fold i blo bhi row idxs new best :
  (forall j, j ∈ idxs -> (blo <= j < bhi)%nat) ->
  scan_row i blo bhi row idxs new best
  = fold_left (scan_step i row) idxs (new, best).
Proof.
  revert new best. induction idxs as [|j rest IH]; intros new best Hin;
    [reflexivity|].
  assert (Hj : (blo <= j < bhi)%nat) by (apply Hin; left).
  simpl.
  destruct (Nat.ltb_spec j blo); [lia|].
  destruct (Nat.leb_spec bhi j); [lia|].
  rewrite IH by (intros; apply Hin; right; assumption).
  reflexivity.
Qed.

Lemma fold_scan_step_lookup_in i row l st j :
  j ∈ l ->
  (fold_left (scan_step i row) l st).1 !! j
  = Some (j2len_get_pred row j + 1)%nat.
Proof.
  revert st. induction l as [|x l IH]; intros st Hj; [inversion Hj|].
  simpl. destruct (decide (j ∈ l)) as [Hl|Hl]; [apply IH; exact Hl|].
  apply elem_of_cons in Hj as [->|Hj]; [|contradiction].
  clear IH. revert st. induction l as [|y l IH]; intros st.
  - simpl. apply lookup_insert_eq.
  - apply not_elem_of_cons in Hl as [Hne Hl]. simpl.
    specialize (IH Hl).
    assert (Hgen : forall st',
               st'.1 !! x = Some (j2len_get_pred row x + 1)%nat ->
               (fold_left (scan_step i row) l st').1 !! x
               = Some (j2len_get_pred row x + 1)%nat).
    { clear IH. induction l as [|z l IHl]; intros st' Hst'; [exact Hst'|].
      apply not_elem_of_cons in Hl as [Hne' Hl]. simpl. apply IHl; [exact Hl|].
      simpl. rewrite lookup_insert_ne by congruence. exact Hst'. }
    apply Hgen. simpl. rewrite lookup_insert_ne by congruence.
    apply lookup_insert_eq.
Qed.

Lemma fold_scan_step_lookup_out i row l st j :
  j ∉ l -> (fold_left (scan_step i row) l st).1 !! j = st.1 !! j.
Proof.
  revert st. induction l as [|x l IH]; intros st Hj; [reflexivity|].
  apply not_elem_of_cons in Hj as [Hne Hl]. simpl. rewrite IH by exact Hl.
  simpl. apply lookup_insert_ne. congruence.
Qed.

(** Indices whose run is not longer than the best one leave it alone. *)
Lemma fold_scan_step_keep i row l st :
  (forall j, j ∈ l -> (j2len_get_pred row j + 1 <= st.2.2)%nat) ->
  (fold_left (scan_step i row) l st).2 = st.2.
Proof.
  revert st. induction l as [|x l IH]; intros st Hle; [reflexivity|].
  simpl.
  assert (Hx : (j2len_get_pred row x + 1 <= st.2.2)%nat) by (apply Hle; left).
  assert (Hstep : (scan_step i row st x).2 = st.2).
  { unfold scan_step. simpl. case_ltb; [exfalso; lia|reflexivity]. }
  rewrite IH; [exact Hstep|].
  intros j Hj. rewrite Hstep. apply Hle. right. exact Hj.
Qed.

(** A row whose indices split around the diagonal index [i], with the
    earlier ones bounded by the best size so far and the later ones by the
    diagonal run, moves the best match along the diagonal only. *)
Lemma fold_scan_step_diag i row l1 l2 new best :
  let k := (j2len_get_pred row i + 1)%nat in
  (forall j, j ∈ l1 -> (j2len_get_pred row j + 1 <= best.2)%nat) ->
  (forall j, j ∈ l2 -> (j2len_get_pred row j + 1 <= k)%nat) ->
  (fold_left (scan_step i row) (l1 ++ i :: l2) (new, best)).2
  = if (best.2 <? k)%nat then ((i + 1 - k)%nat, (i + 1 - k)%nat, k) else best.
Proof.
  intros k H1 H2. rewrite fold_left_app. simpl.
  set (st1 := fold_left (scan_step i row) l1 (new, best)).
  assert (Hst1 : st1.2 = best) by (apply (fold_scan_step_keep i row l1 (new, best)); exact H1).
  rewrite fold_scan_step_keep.
  - unfold scan_step. simpl. rewrite Hst1. reflexivity.
  - intros j Hj. unfold scan_step. simpl. rewrite Hst1. fold k.
    specialize (H2 j Hj). fold k in H2.
    case_ltb; simpl; lia.
Qed.

Lemma j2len_get_pred_empty j : j2len_get_pred ∅ j = 0%nat.
Proof. destruct j; simpl; [reflexivity|]. rewrite lookup_empty. reflexivity. Qed.

Lemma run_len_le b2j s j : (run_len b2j s j <= j)%nat.
Proof.
  induction j as [|j IH]; simpl; [lia|].
  destruct (s !! j); [|lia]. destruct (b2j !! a); lia.
Qed.

Lemma run_len_S_kept b2j (s : str) j c idxs :
  s !! j = Some c -> b2j !! c = Some idxs ->
  run_len b2j s (S j) = S (run_len b2j s j).
Proof. intros Hs Hb. simpl. rewrite Hs, Hb. reflexivity. Qed.

Lemma run_len_S_dropped b2j (s : str) j c :
  s !! j = Some c -> b2j !! c = None -> run_len b2j s (S j) = 0%nat.
Proof. intros Hs Hb. simpl. rewrite Hs, Hb. reflexivity. Qed.

(** Scanning row [i] of a sequence matched against itself keeps
    [row_inv]. *)
Lemma row_step_inv (s : str) i st :
  (i < length s)%nat ->
  row_inv (chain_b s) s i st ->
  row_inv (chain_b s) s (S i) (row_step s (chain_b s) 0 (length s) st i).
Proof.
  intros Hi (R1 & R2 & R3 & B1 & C1 & C2).
  destruct (lookup_lt_is_Some_2 s i Hi) as [c Hc].
  unfold row_step. rewrite Hc.
  destruct (chain_b s !! c) as [idxs|] eqn:Hb; simpl.
  - pose proof (chain_b_lookup _ _ _ Hb) as ->.
    destruct (positions_split c 0 s i Hc) as (l1 & l2 & Heq & Hl1 & Hl2).
    simpl in Heq, Hl1, Hl2.
    assert (Hin : forall j, j ∈ positions c 0 s -> s !! j = Some c).
    { intros j Hj. apply positions_lookup in Hj.
      rewrite Nat.sub_0_r in Hj. exact Hj. }
    assert (Hi_in : i ∈ positions c 0 s).
    { rewrite Heq. apply elem_of_app. right. left. }
    rewrite scan_row_fold.
    2:{ intros j Hj. apply Hin, lookup_lt_Some in Hj. lia. }
    set (k := (j2len_get_pred st.1 i + 1)%nat).
    set (st' := fold_left (scan_step i st.1) (positions c 0 s) (∅, st.2)).
    assert (Hbest : st'.2 = if (st.2.2 <? k)%nat
                            then ((i + 1 - k)%nat, (i + 1 - k)%nat, k)
                            else st.2).
    { unfold st'. rewrite Heq. apply fold_scan_step_diag.
      - intros j Hj. simpl.
        assert (Hsj : s !! j = Some c).
        { apply Hin. rewrite Heq. apply elem_of_app. left. exact Hj. }
        specialize (Hl1 j Hj). specialize (R1 j).
        pose proof (B1 (S j) ltac:(lia)) as HB.
        rewrite (run_len_S_kept _ _ _ _ _ Hsj Hb) in HB. lia.
      - intros j Hj. specialize (R2 j). lia. }
    assert (Hget : forall j',
               j2len_get_pred st'.1 j'
               = match j' with
                 | O => 0%nat
                 | S j => if decide (j ∈ positions c 0 s)
                          then (j2len_get_pred st.1 j + 1)%nat else 0%nat
                 end).
    { intros [|j]; [reflexivity|]. simpl. unfold st'. destruct (decide _) as [Hj|Hj].
      - rewrite fold_scan_step_lookup_in by exact Hj. reflexivity.
      - rewrite fold_scan_step_lookup_out by exact Hj. simpl.
        rewrite lookup_empty. reflexivity. }
    assert (Hdiag : j2len_get_pred st'.1 (S i) = k).
    { rewrite Hget. destruct (decide _); [reflexivity | contradiction]. }
    assert (Hk : k = run_len (chain_b s) s (S i)).
    { unfold k. rewrite R3, (run_len_S_kept _ _ _ _ _ Hc Hb). lia. }
    unfold row_inv. fold st'. repeat split.
    + intros j'. rewrite Hget. destruct j' as [|j]; [lia|].
      destruct (decide _) as [Hj|Hj]; [|lia].
      rewrite (run_len_S_kept _ _ _ _ _ (Hin j Hj) Hb). specialize (R1 j). lia.
    + intros j'. rewrite Hdiag, Hget. destruct j' as [|j]; [lia|].
      destruct (decide _) as [Hj|Hj]; [|lia].
      unfold k. specialize (R2 j). lia.
    + rewrite Hdiag. exact Hk.
    + intros j Hj. rewrite Hbest.
      destruct (decide (j = S i)) as [->|Hne].
      * rewrite <- Hk. case_ltb; simpl; lia.
      * specialize (B1 j ltac:(lia)). case_ltb; simpl; lia.
    + rewrite Hbest. case_ltb; simpl; [reflexivity | exact C1].
    + rewrite Hbest. pose proof (run_len_le (chain_b s) s (S i)).
      case_ltb; simpl; lia.
  - unfold row_inv. cbn [fst snd]. repeat split.
    + intros j. rewrite j2len_get_pred_empty. lia.
    + intros j. rewrite !j2len_get_pred_empty. lia.
    + rewrite j2len_get_pred_empty, (run_len_S_dropped _ _ _ _ Hc Hb). reflexivity.
    + intros j Hj. destruct (decide (j = S i)) as [->|Hne].
      * rewrite (run_len_S_dropped _ _ _ _ Hc Hb). lia.
      * apply B1. lia.
    + exact C1.
    + lia.
Qed.

(** After the outer loop over a whole sequence matched against itself,
    the best match lies on the diagonal and inside the sequence. *)
Lemma rows_inv (s : str) n :
  (n <= length s)%nat ->
  row_inv (chain_b s) s n
    (fold_left (row_step s (chain_b s) 0 (length s)) (seq 0 n)
       (∅, (0, 0, 0)%nat)).
Proof.
  induction n as [|n IH]; intros Hn.
  - unfold row_inv. cbn [seq fold_left fst snd]. repeat split; try lia.
    + intros j. rewrite j2len_get_pred_empty. lia.
    + intros j. rewrite !j2len_get_pred_empty. lia.
    + intros j Hj. assert (j = 0)%nat as -> by lia. simpl. lia.
  - rewrite seq_S, fold_left_app. simpl.
    apply row_step_inv; [lia|]. apply IH. lia.
Qed.

Lemma elt_eqb_self (s : str) i :
  (i < length s)%nat -> elt_eqb (s !! i) (s !! i) = true.
Proof.
  intros Hi. destruct (lookup_lt_is_Some_2 s i Hi) as [c ->].
  simpl. apply Ascii.eqb_refl.
Qed.

Lemma extend_back_self (s : str) i k :
  (i <= length s)%nat -> extend_back s s 0 0 i i k = (0, 0, k + i)%nat.
Proof.
  revert k. induction i as [|i IH]; intros k Hi; simpl.
  - rewrite Nat.add_0_r. reflexivity.
  - rewrite elt_eqb_self by lia. simpl. rewrite IH by lia.
    f_equal. lia.
Qed.

Lemma extend_fwd_self (s : str) fuel k :
  (k + fuel = length s)%nat ->
  extend_fwd fuel s s (length s) (length s) 0 0 k = length s.
Proof.
  revert k. induction fuel as [|fuel IH]; intros k Hk; simpl; [lia|].
  destruct (Nat.ltb_spec k (length s)); [|lia]. simpl.
  rewrite elt_eqb_self by lia. apply IH. lia.
Qed.

(** Matched against itself, a sequence is one block. *)
Lemma find_longest_match_self (s : str) :
  find_longest_match s s (chain_b s) 0 (length s) 0 (length s)
  = (0, 0, length s)%nat.
Proof.
  unfold find_longest_match. rewrite Nat.sub_0_r.
  pose proof (rows_inv s (length s) (Nat.le_refl _)) as Hinv.
  destruct (fold_left _ _ _) as [row [[bi bj] bk]].
  destruct Hinv as (_ & _ & _ & _ & Hdiag & Hend). simpl in Hdiag, Hend.
  subst bj. simpl. rewrite extend_back_self by lia.
  rewrite extend_fwd_self by lia. reflexivity.
Qed.

Lemma get_matching_blocks_self (s : str) :
  list_sum (map (fun t : match_t => t.2) (get_matching_blocks s s).1)
  = length s
  /\ (get_matching_blocks s s).2 = [].
Proof.
  unfold get_matching_blocks. cbn [match_loop].
  rewrite find_longest_match_self.
  destruct (length s) as [|n] eqn:Hn.
  - simpl. split; reflexivity.
  - replace (0 <? S n)%nat with true by reflexivity.
    replace (0 <? 0)%nat with false by reflexivity.
    replace (0 + S n <? S n)%nat with false
      by (symmetry; apply Nat.ltb_ge; lia).
    cbn [andb app]. destruct n; simpl; split; try reflexivity; lia.
Qed.

Lemma calculate_ratio_full n : calculate_ratio n (n + n) = 1%Q.
Proof.
  unfold calculate_ratio. case_ltb; [|reflexivity].
  replace (2 * Z.of_nat n) with (Z.of_nat (n + n)) by lia.
  change 1%Q with (Qred 1). apply Qred_complete.
  apply Qmult_inv_r. intros H0.
  unfold Qeq in H0. simpl in H0. lia.
Qed.

Lemma ratio_self (s : str) : ratio s s = 1%Q.
Proof.
  unfold ratio. rewrite (proj1 (get_matching_blocks_self s)).
  apply calculate_ratio_full.
Qed.

(** *** The loop of [get_matching_blocks] empties its queue *)

Section Bounds.

Variables (a b : str) (b2j : gmap ascii (list nat)).
Variables (alo blo bhi : nat).

Lemma scan_row_bounds i row idxs new best :
  (alo <= i)%nat ->
  (forall j, j2len_get_pred row j <= i - alo)%nat ->
  (forall j, default 0%nat (new !! j) <= i + 1 - alo)%nat ->
  (alo <= best.1.1)%nat -> (best.1.1 + best.2 <= i + 1)%nat ->
  let st := scan_row i blo bhi row idxs new best in
  (forall j, default 0%nat (st.1 !! j) <= i + 1 - alo)%nat
  /\ (alo <= st.2.1.1)%nat /\ (st.2.1.1 + st.2.2 <= i + 1)%nat.
Proof.
  intros Hi Hrow. revert new best.
  induction idxs as [|j rest IH]; intros new best Hnew Hb1 Hb2; simpl.
  - auto.
  - case_ltb; [apply IH; assumption|].
    case_leb; [simpl; auto|].
    apply IH.
    + intros j'. destruct (decide (j = j')) as [->|Hne].
      * rewrite lookup_insert_eq. simpl. specialize (Hrow j'). lia.
      * rewrite lookup_insert_ne by exact Hne. apply Hnew.
    + specialize (Hrow j). case_ltb; simpl; lia.
    + specialize (Hrow j). case_ltb; simpl; lia.
Qed.

Lemma rows_bounds m :
  let st := fold_left (row_step a b2j blo bhi) (seq alo m) (∅, (alo, blo, 0%nat)) in
  (forall j, j2len_get_pred st.1 j <= m)%nat
  /\ (alo <= st.2.1.1)%nat /\ (st.2.1.1 + st.2.2 <= alo + m)%nat.
Proof.
  induction m as [|m IH].
  - cbn [seq fold_left fst snd]. repeat split; try lia.
    intros j. rewrite j2len_get_pred_empty. lia.
  - rewrite seq_S, fold_left_app. cbn [fold_left].
    set (st := fold_left _ (seq alo m) _) in *.
    destruct IH as (Hrow & Hb1 & Hb2). unfold row_step.
    destruct (scan_row_bounds (alo + m) st.1
                (match a !! (alo + m)%nat with
                 | Some elt => default [] (b2j !! elt)
                 | None => []
                 end) ∅ st.2) as (Hnew & Hb1' & Hb2'); try lia.
    + intros j. specialize (Hrow j). lia.
    + intros j. rewrite lookup_empty. simpl. lia.
    + repeat split; try lia.
      intros [|j]; simpl; [lia|]. specialize (Hnew j). lia.
Qed.

Lemma extend_back_bounds besti bestj bestsize :
  (alo <= besti)%nat ->
  let r := extend_back a b alo blo besti bestj bestsize in
  (alo <= r.1.1)%nat /\ (r.1.1 + r.2 = besti + bestsize)%nat.
Proof.
  revert bestj bestsize.
  induction besti as [|i IH]; intros bestj bestsize Hi; simpl; [lia|].
  destruct bestj as [|j]; simpl; [lia|].
  destruct (_ && _ && _) eqn:Hc; simpl; [|lia].
  apply andb_prop in Hc as [Hc _]. apply andb_prop in Hc as [Hc _].
  apply Nat.ltb_lt in Hc.
  destruct (IH j (S bestsize) ltac:(lia)) as [H1 H2]. lia.
Qed.

Lemma extend_fwd_bounds fuel ahi besti bestj bestsize :
  (besti + bestsize <= ahi)%nat ->
  (besti + extend_fwd fuel a b ahi bhi besti bestj bestsize <= ahi)%nat
  /\ (bestsize <= extend_fwd fuel a b ahi bhi besti bestj bestsize)%nat.
Proof.
  revert bestsize. induction fuel as [|fuel IH]; intros bestsize H; simpl; [lia|].
  destruct (_ && _ && _) eqn:Hc; [|lia].
  apply andb_prop in Hc as [Hc _]. apply andb_prop in Hc as [Hc _].
  apply Nat.ltb_lt in Hc.
  destruct (IH (S bestsize) ltac:(lia)). lia.
Qed.

(** The match lies inside the range of [a] that was searched. *)
Lemma find_longest_match_bounds ahi :
  (alo <= ahi)%nat ->
  let r := find_longest_match a b b2j alo ahi blo bhi in
  (alo <= r.1.1)%nat /\ (r.1.1 + r.2 <= ahi)%nat.
Proof.
  intros Hle. unfold find_longest_match.
  pose proof (rows_bounds (ahi - alo)) as Hrows.
  destruct (fold_left _ _ _) as [row [[bi bj] bk]].
  destruct Hrows as (_ & Hb1 & Hb2). simpl in Hb1, Hb2. simpl.
  pose proof (extend_back_bounds bi bj bk Hb1) as Hback.
  destruct (extend_back a b alo blo bi bj bk) as [[bi' bj'] bk'].
  simpl in Hback. simpl.
  destruct (extend_fwd_bounds (ahi - (bi' + bk')) ahi bi' bj' bk' ltac:(lia)).
  lia.
Qed.

End Bounds.

Lemma queue_size_cons alo ahi blo bhi queue :
  queue_size ((alo, ahi, blo, bhi) :: queue)
  = ((ahi - alo) + queue_size queue)%nat.
Proof. reflexivity. Qed.

Lemma match_loop_done (a b : str) b2j fuel queue blocks :
  (forall r : range_t, r ∈ queue -> (r.1.1.1 < r.1.1.2)%nat) ->
  (queue_size queue <= fuel)%nat ->
  (match_loop fuel a b b2j queue blocks).2 = [].
Proof.
  revert queue blocks.
  induction fuel as [|fuel IH]; intros queue blocks Hpos Hsize.
  - destruct queue as [|[[[alo ahi] blo] bhi] queue]; [reflexivity|].
    specialize (Hpos (alo, ahi, blo, bhi) ltac:(left)).
    unfold queue_size in Hsize. simpl in Hpos, Hsize. lia.
  - destruct queue as [|[[[alo ahi] blo] bhi] queue]; [reflexivity|].
    pose proof (Hpos (alo, ahi, blo, bhi) ltac:(left)) as Hr. simpl in Hr.
    assert (Hrest : forall r : range_t, r ∈ queue -> (r.1.1.1 < r.1.1.2)%nat)
      by (intros r Hin; apply Hpos; right; exact Hin).
    rewrite queue_size_cons in Hsize.
    cbn [match_loop].
    pose proof (find_longest_match_bounds a b b2j alo blo bhi ahi ltac:(lia)) as Hb.
    destruct (find_longest_match a b b2j alo ahi blo bhi) as [[i j] k].
    simpl in Hb. destruct Hb as [Hb1 Hb2].
    case_ltb; [|apply IH; [exact Hrest | lia]].
    apply IH.
    + intros r Hin.
      destruct ((i + k <? ahi)%nat && (j + k <? bhi)%nat) eqn:Hc2.
      * apply elem_of_cons in Hin as [->|Hin].
        { apply andb_prop in Hc2 as [Hc2 _]. apply Nat.ltb_lt in Hc2. exact Hc2. }
        destruct ((alo <? i)%nat && (blo <? j)%nat) eqn:Hc1; [|auto].
        apply elem_of_cons in Hin as [->|Hin]; [|auto].
        apply andb_prop in Hc1 as [Hc1 _]. apply Nat.ltb_lt in Hc1. exact Hc1.
      * destruct ((alo <? i)%nat && (blo <? j)%nat) eqn:Hc1; [|auto].
        apply elem_of_cons in Hin as [->|Hin]; [|auto].
        apply andb_prop in Hc1 as [Hc1 _]. apply Nat.ltb_lt in Hc1. exact Hc1.
    + destruct ((i + k <? ahi)%nat && (j + k <? bhi)%nat);
        destruct ((alo <? i)%nat && (blo <? j)%nat);
        rewrite ?queue_size_cons; lia.
Qed.

(** Every call of [get_matching_blocks] processes its whole queue. *)
Lemma get_matching_blocks_complete (a b : str) :
  (get_matching_blocks a b).2 = [].
Proof.
  unfold get_matching_blocks.
  assert (Hdone : (match_loop (S (length a)) a b (chain_b b)
                     [(0%nat, length a, 0%nat, length b)] []).2 = []).
  { cbn [match_loop].
    pose proof (find_longest_match_bounds a b (chain_b b) 0 0 (length b)
                  (length a) ltac:(lia)) as Hb.
    destruct (find_longest_match a b (chain_b b) 0 (length a) 0 (length b))
      as [[i j] k].
    simpl in Hb. destruct Hb as [Hb1 Hb2].
    case_ltb; [|destruct (length a); reflexivity].
    apply match_loop_done.
    - intros r Hin.
      destruct ((i + k <? length a)%nat && (j + k <? length b)%nat) eqn:Hc2.
      + apply elem_of_cons in Hin as [->|Hin].
        { apply andb_prop in Hc2 as [Hc2 _]. apply Nat.ltb_lt in Hc2. exact Hc2. }
        destruct ((0 <? i)%nat && (0 <? j)%nat) eqn:Hc1; [|inversion Hin].
        apply elem_of_cons in Hin as [->|Hin]; [|inversion Hin].
        apply andb_prop in Hc1 as [Hc1 _]. apply Nat.ltb_lt in Hc1. exact Hc1.
      + destruct ((0 <? i)%nat && (0 <? j)%nat) eqn:Hc1; [|inversion Hin].
        apply elem_of_cons in Hin as [->|Hin]; [|inversion Hin].
        apply andb_prop in Hc1 as [Hc1 _]. apply Nat.ltb_lt in Hc1. exact Hc1.
    - destruct ((i + k <? length a)%nat && (j + k <? length b)%nat);
        destruct ((0 <? i)%nat && (0 <? j)%nat);
        rewrite ?queue_size_cons; unfold queue_size; simpl; lia. }
  destruct (match_loop _ _ _ _ _ _) as [blocks unprocessed].
  simpl in Hdone. simpl. exact Hdone.
Qed.

(** *** One side empty *)

Lemma chain_b_nil : chain_b [] = ∅.
Proof. unfold chain_b. simpl. apply map_filter_empty. Qed.

Lemma rows_no_index (a : str) blo bhi l st :
  (fold_left (row_step a ∅ blo bhi) l st).2 = st.2.
Proof.
  revert st. induction l as [|i l IH]; intros st; [reflexivity|].
  simpl. rewrite IH. unfold row_step.
  destruct (a !! i); [rewrite lookup_empty|]; reflexivity.
Qed.

Lemma ratio_nil_l (b : str) : ratio [] b = calculate_ratio 0 (length b).
Proof. reflexivity. Qed.

Lemma find_longest_match_nil_r (a : str) :
  find_longest_match a [] ∅ 0 (length a) 0 0 = (0, 0, 0)%nat.
Proof.
  unfold find_longest_match.
  pose proof (rows_no_index a 0 0 (seq 0 (length a - 0)) (∅, (0, 0, 0)%nat)) as H.
  destruct (fold_left _ _ _) as [row best]. simpl in H. subst best. simpl.
  destruct (length a - 0)%nat; simpl; [reflexivity|].
  rewrite andb_false_r. reflexivity.
Qed.

Lemma match_loop_nil (a b : str) b2j fuel blocks :
  match_loop fuel a b b2j [] blocks = (blocks, []).
Proof. destruct fuel; reflexivity. Qed.

Lemma ratio_nil_r (a : str) : ratio a [] = calculate_ratio 0 (length a).
Proof.
  unfold ratio, get_matching_blocks. rewrite chain_b_nil.
  cbn [match_loop length]. rewrite find_longest_match_nil_r.
  simpl. rewrite match_loop_nil. simpl. rewrite Nat.add_0_r. reflexivity.
Qed.

End DifflibFacts.

(** ** The similarity scorer *)

Lemma sql_similarity_same_normal_form (a b : str) :
  normalize_sql a = normalize_sql b -> sql_similarity a b = 1%Q.
Proof.
  intros H. unfold sql_similarity. rewrite H. apply DifflibFacts.ratio_self.
Qed.

(** C5: the similarity of a string with itself is exactly 1, and so is the
    similarity of any two strings with the same normalized form. *)
Theorem sql_similarity_identical :
  (forall s : str, sql_similarity s s = 1%Q)
  /\ (forall a b : str,
         normalize_sql a = normalize_sql b -> sql_similarity a b = 1%Q).
Proof.
  split.
  - intros s. apply sql_similarity_same_normal_form. reflexivity.
  - apply sql_similarity_same_normal_form.
Qed.

(** Two spellings of one statement. *)
Lemma sql_similarity_identical_witness :
  normalize_sql (lit "SELECT  id FROM t;") = normalize_sql (lit "select id from T")
  /\ sql_similarity (lit "SELECT  id FROM t;") (lit "select id from T") = 1%Q.
Proof.
  split; [vm_compute; reflexivity|].
  apply (proj2 sql_similarity_identical). vm_compute. reflexivity.
Defined.

(** C6, the claim as stated fails: the score of [tide] against [diet] is
    1/4, the score of [diet] against [tide] is 1/2. *)
Lemma sql_similarity_not_symmetric :
  sql_similarity (lit "tide") (lit "diet") = (1 # 4)%Q
  /\ sql_similarity (lit "diet") (lit "tide") = (1 # 2)%Q
  /\ sql_similarity (lit "tide") (lit "diet")
     <> sql_similarity (lit "diet") (lit "tide").
Proof. vm_compute. repeat split; intros; discriminate. Qed.

(** C6 as amended: the score is the same in both argument orders when the
    two normalized forms are identical or one of them is empty; for other
    pairs it can depend on the order. *)
Theorem sql_similarity_symmetric_cases :
  forall a b : str,
    normalize_sql a = normalize_sql b
    \/ normalize_sql a = [] \/ normalize_sql b = [] ->
    sql_similarity a b = sql_similarity b a.
Proof.
  intros a b [H|[H|H]].
  - rewrite (sql_similarity_same_normal_form a b H).
    rewrite (sql_similarity_same_normal_form b a (eq_sym H)). reflexivity.
  - unfold sql_similarity. rewrite H.
    rewrite DifflibFacts.ratio_nil_l, DifflibFacts.ratio_nil_r. reflexivity.
  - unfold sql_similarity. rewrite H.
    rewrite DifflibFacts.ratio_nil_l, DifflibFacts.ratio_nil_r. reflexivity.
Qed.

(** A statement that normalizes to the empty string, against another. *)
Lemma sql_similarity_symmetric_cases_witness :
  sql_similarity (lit " ; ") (lit "SELECT 1")
  = sql_similarity (lit "SELECT 1") (lit " ; ").
Proof.
  apply sql_similarity_symmetric_cases. right. left. vm_compute. reflexivity.
Defined.

(** * Further properties *)

(** ** The normalizer and the exact-match score *)

Ltac each_ascii c :=
  destruct c as [[] [] [] [] [] [] [] []]; vm_compute; try reflexivity;
  try discriminate; try tauto.

Lemma lower_char_upper_char c : lower_char (upper_char c) = lower_char c.
Proof. each_ascii c. Qed.

Lemma lower_char_lower_char c : lower_char (lower_char c) = lower_char c.
Proof. each_ascii c. Qed.

Lemma isspace_lower_char c : isspace (lower_char c) = isspace c.
Proof. each_ascii c. Qed.

Lemma is_ascii_upper_lower_char c : is_ascii_upper (lower_char c) = false.
Proof. each_ascii c. Qed.

Lemma lower_char_not_upper c : is_ascii_upper c = false -> lower_char c = c.
Proof.
  unfold is_ascii_upper, lower_char. intros H. rewrite H. reflexivity.
Qed.

Lemma isspace_not_upper c : isspace c = true -> is_ascii_upper c = false.
Proof. each_ascii c. Qed.

Lemma lower_upper (s : str) : lower (upper s) = lower s.
Proof.
  unfold lower, upper. rewrite map_map. apply map_ext.
  intros c. apply lower_char_upper_char.
Qed.

Lemma lower_lower (s : str) : lower (lower s) = lower s.
Proof.
  unfold lower. rewrite map_map. apply map_ext.
  intros c. apply lower_char_lower_char.
Qed.

Lemma forallb_isspace_lower (s : str) :
  forallb isspace (lower s) = forallb isspace s.
Proof.
  induction s as [|c s IH]; simpl; [reflexivity|].
  rewrite isspace_lower_char, IH. reflexivity.
Qed.

Section StripMore.

Variable p : ascii -> bool.

Lemma lstrip_by_all t : forallb p t = true -> lstrip_by p t = [].
Proof.
  induction t as [|c t IH]; simpl; [reflexivity|].
  intros H. apply andb_prop in H as [Hc Ht]. rewrite Hc. apply IH, Ht.
Qed.

Lemma lstrip_by_app_l ws t :
  forallb p ws = true -> lstrip_by p (ws ++ t) = lstrip_by p t.
Proof.
  induction ws as [|c ws IH]; simpl; [reflexivity|].
  intros H. apply andb_prop in H as [Hc Hws]. rewrite Hc. apply IH, Hws.
Qed.

Lemma lstrip_by_app_r t u :
  lstrip_by p (t ++ u)
  = match lstrip_by p t with
    | [] => lstrip_by p u
    | t' => t' ++ u
    end.
Proof.
  induction t as [|c t IH]; simpl.
  - destruct (lstrip_by p u); reflexivity.
  - destruct (p c); [exact IH | reflexivity].
Qed.

Lemma rstrip_by_app_r t ws :
  forallb p ws = true -> rstrip_by p (t ++ ws) = rstrip_by p t.
Proof.
  intros Hws. induction t as [|c t IH]; simpl.
  - apply rstrip_by_nil_iff. exact Hws.
  - rewrite IH. reflexivity.
Qed.

(** What [rstrip] returns is a prefix of its argument. *)
Lemma rstrip_by_prefix t :
  exists u, t = rstrip_by p t ++ u /\ forallb p u = true.
Proof.
  induction t as [|c t (u & Hu & Hp)]; simpl.
  - exists []. split; reflexivity.
  - destruct (rstrip_by p t) as [|d t'] eqn:Hr.
    + destruct (p c) eqn:Hc.
      * exists (c :: t). split; [reflexivity|].
        simpl. rewrite Hc. simpl. apply rstrip_by_nil_iff. exact Hr.
      * exists t. split; [reflexivity|]. apply rstrip_by_nil_iff. exact Hr.
    + exists u. split; [|exact Hp]. simpl. rewrite Hu at 1. reflexivity.
Qed.

Lemma rstrip_by_fixed t :
  (forall c, last t = Some c -> p c = false) -> rstrip_by p t = t.
Proof.
  induction t as [|c t IH]; intros H; [reflexivity|].
  destruct t as [|d t].
  - simpl. rewrite (H c eq_refl). reflexivity.
  - rewrite rstrip_by_cons, IH; [reflexivity|].
    intros x Hx. apply H. exact Hx.
Qed.

Lemma length_rstrip_by t : (length (rstrip_by p t) <= length t)%nat.
Proof.
  destruct (rstrip_by_prefix t) as (u & Hu & _).
  rewrite Hu at 2. rewrite length_app. lia.
Qed.

Lemma length_rstrip_by_lt t c :
  last t = Some c -> p c = true ->
  (length (rstrip_by p t) < length t)%nat.
Proof.
  intros Hl Hc.
  destruct (decide (length (rstrip_by p t) < length t)%nat) as [|Hge]; [assumption|].
  exfalso.
  destruct (rstrip_by_prefix t) as (u & Hu & _).
  assert (Hlen : length t = (length (rstrip_by p t) + length u)%nat)
    by (rewrite Hu at 1; apply length_app).
  assert (u = []) as -> by (destruct u; [reflexivity | simpl in Hlen; lia]).
  rewrite app_nil_r in Hu. rewrite Hu in Hl.
  apply rstrip_by_last in Hl. congruence.
Qed.

Lemma length_lstrip_by t : (length (lstrip_by p t) <= length t)%nat.
Proof.
  induction t as [|c t IH]; simpl; [lia|].
  destruct (p c); simpl; lia.
Qed.

End StripMore.

Lemma strip_surrounded (ws1 t ws2 : str) :
  forallb isspace ws1 = true -> forallb isspace ws2 = true ->
  strip (ws1 ++ t ++ ws2) = strip t.
Proof.
  intros H1 H2. unfold strip.
  rewrite lstrip_by_app_l by exact H1. rewrite lstrip_by_app_r.
  destruct (lstrip_by isspace t) as [|c t'] eqn:Ht.
  - rewrite lstrip_by_all by exact H2. reflexivity.
  - apply rstrip_by_app_r. exact H2.
Qed.

(** X1: [normalize_sql] does not see the case of ASCII letters nor the
    whitespace around a statement. *)
Theorem normalize_sql_ignores_case_and_margins :
  forall (s ws1 ws2 : str),
    Forall (fun c => is_ascii c = true) s ->
    forallb isspace ws1 = true -> forallb isspace ws2 = true ->
    normalize_sql (upper s) = normalize_sql s
    /\ normalize_sql (lower s) = normalize_sql s
    /\ normalize_sql (ws1 ++ s ++ ws2) = normalize_sql s
    /\ exact_match_score (ws1 ++ upper s ++ ws2) s = 1%Q.
Proof.
  intros s ws1 ws2 _ H1 H2.
  assert (Hu : normalize_sql (upper s) = normalize_sql s)
    by (unfold normalize_sql; rewrite lower_upper; reflexivity).
  assert (Hm : forall t, normalize_sql (ws1 ++ t ++ ws2) = normalize_sql t).
  { intros t. unfold normalize_sql, lower. rewrite !map_app.
    rewrite strip_surrounded; [reflexivity| |];
      fold (lower ws1); fold (lower ws2);
      rewrite forallb_isspace_lower; assumption. }
  repeat split.
  - exact Hu.
  - unfold normalize_sql. rewrite lower_lower. reflexivity.
  - apply Hm.
  - unfold exact_match_score. rewrite Hm, Hu. rewrite str_eqb_refl. reflexivity.
Qed.

Lemma normalize_sql_ignores_case_and_margins_witness :
  normalize_sql (lit "  " ++ lit "Select Id From T" ++ lit " ")
  = normalize_sql (lit "Select Id From T").
Proof.
  apply (normalize_sql_ignores_case_and_margins
           (lit "Select Id From T") (lit "  ") (lit " ")).
  - repeat constructor.
  - reflexivity.
  - reflexivity.
Defined.

Lemma re_sub_ws_from_spaces r u :
  Forall (fun c => isspace c = true -> c = " "%char) (re_sub_ws_from r u).
Proof.
  revert r. induction u as [|c u IH]; intros r; simpl; [constructor|].
  destruct (isspace c) eqn:Hc.
  - destruct r; [apply IH|]. constructor; [reflexivity | apply IH].
  - constructor; [congruence | apply IH].
Qed.

Lemma re_sub_ws_from_no_adjacent r u :
  has_adjacent_spaces (re_sub_ws_from r u) = false
  /\ (r = true -> starts_with_space (re_sub_ws_from r u) = false).
Proof.
  revert r. induction u as [|c u IH]; intros r; simpl; [split; reflexivity|].
  destruct (isspace c) eqn:Hc.
  - destruct (IH true) as [Hadj Hst]. specialize (Hst eq_refl).
    destruct r; [split; [exact Hadj | intros _; exact Hst]|].
    split; [|discriminate].
    simpl. destruct (re_sub_ws_from true u) as [|d v]; [reflexivity|].
    simpl in Hst. rewrite Hst. simpl. exact Hadj.
  - destruct (IH false) as [Hadj _]. split.
    + simpl. rewrite Hc. simpl.
      destruct (re_sub_ws_from false u); [reflexivity | exact Hadj].
    + intros _. simpl. exact Hc.
Qed.

Lemma re_sub_ws_from_Forall (P : ascii -> Prop) r u :
  P " "%char -> Forall P u -> Forall P (re_sub_ws_from r u).
Proof.
  intros Hsp. revert r. induction u as [|c u IH]; intros r Hu; simpl;
    [constructor|].
  inversion Hu as [|? ? Hc Hu']; subst.
  destruct (isspace c).
  - destruct r; [apply IH, Hu'|]. constructor; [exact Hsp | apply IH, Hu'].
  - constructor; [exact Hc | apply IH, Hu'].
Qed.

Lemma re_sub_ws_starts u :
  starts_with_space u = false -> starts_with_space (re_sub_ws u) = false.
Proof.
  destruct u as [|c u]; simpl; [reflexivity|].
  intros Hc. unfold re_sub_ws. simpl. rewrite Hc. simpl. exact Hc.
Qed.

Lemma length_re_sub_ws_from r u :
  (length (re_sub_ws_from r u) <= length u)%nat.
Proof.
  revert r. induction u as [|c u IH]; intros r; simpl; [lia|].
  destruct (isspace c).
  - destruct r; simpl; [specialize (IH true) | specialize (IH true)]; lia.
  - simpl. specialize (IH false). lia.
Qed.

(** A string whose only whitespace is single spaces is left alone. *)
Lemma re_sub_ws_from_fixed r t :
  Forall (fun c => isspace c = true -> c = " "%char) t ->
  has_adjacent_spaces t = false ->
  (r = true -> starts_with_space t = false) ->
  re_sub_ws_from r t = t.
Proof.
  revert r. induction t as [|c t IH]; intros r Hsp Hadj Hst; [reflexivity|].
  inversion Hsp as [|? ? Hc Ht]; subst. simpl.
  assert (Hadj' : has_adjacent_spaces t = false).
  { simpl in Hadj. destruct t; [reflexivity|].
    apply orb_false_elim in Hadj as [_ H]. exact H. }
  destruct (isspace c) eqn:Hs.
  - destruct r; [specialize (Hst eq_refl); simpl in Hst; congruence|].
    rewrite (Hc eq_refl). f_equal. apply IH; [exact Ht | exact Hadj' |].
    intros _. simpl in Hadj. destruct t as [|d t]; [reflexivity|].
    apply orb_false_elim in Hadj as [H _]. simpl. rewrite Hs in H.
    simpl in H. exact H.
  - f_equal. apply IH; [exact Ht | exact Hadj' | discriminate].
Qed.

Lemma has_adjacent_spaces_prefix (t u : str) :
  has_adjacent_spaces (t ++ u) = false -> has_adjacent_spaces t = false.
Proof.
  induction t as [|c t IH]; [reflexivity|].
  destruct t as [|d t]; [reflexivity|].
  change ((isspace c && isspace d) || has_adjacent_spaces ((d :: t) ++ u) = false
          -> (isspace c && isspace d) || has_adjacent_spaces (d :: t) = false).
  intros H. apply orb_false_elim in H as [H1 H2].
  rewrite H1, (IH H2). reflexivity.
Qed.

Lemma starts_with_space_prefix (t u : str) :
  starts_with_space (t ++ u) = false -> starts_with_space t = false.
Proof. destruct t; [reflexivity | exact id]. Qed.

Lemma lstrip_by_Forall (P : ascii -> Prop) p u :
  Forall P u -> Forall P (lstrip_by p u).
Proof.
  induction 1 as [|c u Hc Hu IH]; simpl; [constructor|].
  destruct (p c); [exact IH | constructor; assumption].
Qed.

Lemma rstrip_by_Forall (P : ascii -> Prop) p u :
  Forall P u -> Forall P (rstrip_by p u).
Proof.
  intros H. destruct (rstrip_by_prefix p u) as (v & Hv & _).
  rewrite Hv in H. apply Forall_app in H as [H _]. exact H.
Qed.

Lemma rstrip_by_no_adjacent p u :
  has_adjacent_spaces u = false -> has_adjacent_spaces (rstrip_by p u) = false.
Proof.
  intros H. destruct (rstrip_by_prefix p u) as (v & Hv & _).
  rewrite Hv in H. apply has_adjacent_spaces_prefix in H. exact H.
Qed.

Lemma rstrip_by_starts p u :
  starts_with_space u = false -> starts_with_space (rstrip_by p u) = false.
Proof.
  intros H. destruct (rstrip_by_prefix p u) as (v & Hv & _).
  rewrite Hv in H. apply starts_with_space_prefix in H. exact H.
Qed.

Lemma lstrip_starts u : starts_with_space (lstrip_by isspace u) = false.
Proof.
  induction u as [|c u IH]; simpl; [reflexivity|].
  destruct (isspace c) eqn:Hc; [exact IH | simpl; exact Hc].
Qed.

Lemma isspace_replaced c :
  isspace (if Ascii.eqb c dquote then squote else c) = isspace c.
Proof. each_ascii c. Qed.

Lemma replace_dquote_no_adjacent u :
  has_adjacent_spaces (replace_dquote u) = has_adjacent_spaces u.
Proof.
  unfold replace_dquote. induction u as [|c u IH]; [reflexivity|].
  destruct u as [|d u]; [reflexivity|].
  change (isspace (if Ascii.eqb c dquote then squote else c)
          && isspace (if Ascii.eqb d dquote then squote else d)
          || has_adjacent_spaces
               (map (fun c => if Ascii.eqb c dquote then squote else c) (d :: u))
          = isspace c && isspace d || has_adjacent_spaces (d :: u)).
  rewrite !isspace_replaced, IH. reflexivity.
Qed.

Lemma replace_dquote_starts u :
  starts_with_space (replace_dquote u) = starts_with_space u.
Proof. destruct u as [|c u]; [reflexivity|]. simpl. apply isspace_replaced. Qed.

(** The shape of a normalized statement. *)
Lemma normalize_sql_shape (s : str) :
  Forall (fun c => c <> dquote /\ is_ascii_upper c = false
                   /\ (isspace c = true -> c = " "%char)) (normalize_sql s)
  /\ has_adjacent_spaces (normalize_sql s) = false
  /\ starts_with_space (normalize_sql s) = false.
Proof.
  unfold normalize_sql. split; [|split].
  - unfold replace_dquote. apply Forall_map.
    assert (H : Forall (fun c => is_ascii_upper c = false
                                 /\ (isspace c = true -> c = " "%char))
                  (rstrip_by is_semicolon (re_sub_ws (strip (lower s))))).
    { apply rstrip_by_Forall. apply Forall_and. split.
      - apply re_sub_ws_from_Forall; [reflexivity|].
        unfold strip. apply rstrip_by_Forall, lstrip_by_Forall.
        unfold lower. apply Forall_map, Forall_forall.
        intros c _. apply is_ascii_upper_lower_char.
      - apply re_sub_ws_from_spaces. }
    eapply Forall_impl; [exact H|]. intros c [Hup Hsp]. simpl.
    destruct (Ascii.eqb c dquote) eqn:Hq.
    + repeat split; [discriminate | intros; discriminate].
    + repeat split; [|exact Hup | exact Hsp].
      intros ->. vm_compute in Hq. discriminate.
  - rewrite replace_dquote_no_adjacent. apply rstrip_by_no_adjacent.
    apply (re_sub_ws_from_no_adjacent false).
  - rewrite replace_dquote_starts. apply rstrip_by_starts, re_sub_ws_starts.
    unfold strip. apply rstrip_by_starts, lstrip_starts.
Qed.

(** X2: a normalized statement holds no double quote, no upper-case ASCII
    letter and no whitespace other than single spaces between words: no
    two in a row and none in front. *)
Theorem normalize_sql_output_shape :
  forall s : str,
    Forall (fun c => c <> dquote /\ is_ascii_upper c = false
                     /\ (isspace c = true -> c = " "%char)) (normalize_sql s)
    /\ has_adjacent_spaces (normalize_sql s) = false
    /\ starts_with_space (normalize_sql s) = false.
Proof. exact normalize_sql_shape. Qed.

Lemma last_map_char (f : ascii -> ascii) (t : str) :
  last (map f t) = option_map f (last t).
Proof.
  induction t as [|c t IH]; [reflexivity|].
  destruct t as [|d t]; [reflexivity|]. exact IH.
Qed.

Lemma lower_fixed (t : str) :
  Forall (fun c => is_ascii_upper c = false) t -> lower t = t.
Proof.
  unfold lower. induction 1 as [|c t Hc Ht IH]; simpl; [reflexivity|].
  rewrite (lower_char_not_upper c Hc), IH. reflexivity.
Qed.

Lemma lstrip_fixed (t : str) :
  starts_with_space t = false -> lstrip_by isspace t = t.
Proof. destruct t as [|c t]; simpl; [reflexivity|]. intros ->. reflexivity. Qed.

Lemma replace_dquote_fixed (t : str) :
  Forall (fun c => c <> dquote) t -> replace_dquote t = t.
Proof.
  unfold replace_dquote. induction 1 as [|c t Hc Ht IH]; simpl; [reflexivity|].
  rewrite IH. destruct (Ascii.eqb c dquote) eqn:Hq; [|reflexivity].
  apply Ascii.eqb_eq in Hq. contradiction.
Qed.

(** A string of the normalized shape that ends neither in a space nor in
    a semicolon is its own normal form. *)
Lemma normalize_sql_fixed (t : str) :
  Forall (fun c => c <> dquote /\ is_ascii_upper c = false
                   /\ (isspace c = true -> c = " "%char)) t ->
  has_adjacent_spaces t = false ->
  starts_with_space t = false ->
  last t <> Some semicolon ->
  last t <> Some " "%char ->
  normalize_sql t = t.
Proof.
  intros Hall Hadj Hst Hsemi Hsp.
  assert (Hq : Forall (fun c => c <> dquote) t)
    by (eapply Forall_impl; [exact Hall | intros c H; apply H]).
  assert (Hup : Forall (fun c => is_ascii_upper c = false) t)
    by (eapply Forall_impl; [exact Hall | intros c H; apply H]).
  assert (Hws : Forall (fun c => isspace c = true -> c = " "%char) t)
    by (eapply Forall_impl; [exact Hall | intros c H; apply H]).
  unfold normalize_sql. rewrite (lower_fixed t Hup).
  unfold strip. rewrite (lstrip_fixed t Hst).
  rewrite (rstrip_by_fixed isspace t).
  2:{ intros c Hc. destruct (isspace c) eqn:Hs; [|reflexivity].
      exfalso. apply Hsp. rewrite Hc. f_equal.
      rewrite Forall_forall in Hws. apply Hws; [|exact Hs].
      apply last_Some_elem_of. exact Hc. }
  unfold re_sub_ws. rewrite (re_sub_ws_from_fixed false t Hws Hadj) by discriminate.
  rewrite (rstrip_by_fixed is_semicolon t).
  2:{ intros c Hc. unfold is_semicolon.
      destruct (Ascii.eqb c semicolon) eqn:Hs; [|reflexivity].
      apply Ascii.eqb_eq in Hs. subst c. contradiction. }
  apply replace_dquote_fixed. exact Hq.
Qed.

Lemma length_normalize_sql_strip (t : str) :
  (length (normalize_sql t) <= length (strip (lower t)))%nat.
Proof.
  unfold normalize_sql, replace_dquote. rewrite length_map.
  etransitivity; [apply length_rstrip_by|]. apply length_re_sub_ws_from.
Qed.

(** X3: normalizing a second time changes nothing exactly when the first
    result does not end in a space. *)
Theorem normalize_sql_idempotent_iff :
  forall s : str,
    normalize_sql (normalize_sql s) = normalize_sql s
    <-> last (normalize_sql s) <> Some " "%char.
Proof.
  intros s. destruct (normalize_sql_shape s) as (Hall & Hadj & Hst).
  split.
  - intros Hfix Hlast.
    pose proof (length_normalize_sql_strip (normalize_sql s)) as Hlen.
    rewrite Hfix in Hlen. unfold strip in Hlen.
    assert (Hlow : last (lower (normalize_sql s)) = Some " "%char).
    { unfold lower. rewrite last_map_char, Hlast. reflexivity. }
    assert (Hl : lstrip_by isspace (lower (normalize_sql s))
                 = lower (normalize_sql s)).
    { apply lstrip_fixed. destruct (normalize_sql s) as [|c t]; [reflexivity|].
      simpl in *. rewrite isspace_lower_char. exact Hst. }
    rewrite Hl in Hlen.
    pose proof (length_rstrip_by_lt isspace _ _ Hlow eq_refl) as Hlt.
    assert (Hmap : length (lower (normalize_sql s)) = length (normalize_sql s))
      by (unfold lower; apply length_map).
    lia.
  - intros Hlast. apply normalize_sql_fixed; try assumption.
    apply normalize_sql_no_trailing_semicolon.
Qed.

Lemma exact_match_score_cases (p r : str) :
  (exact_match_score p r = 1%Q \/ exact_match_score p r = 0%Q)
  /\ (exact_match_score p r = 1%Q <-> normalize_sql p = normalize_sql r).
Proof.
  unfold exact_match_score, str_eqb.
  destruct (decide (normalize_sql p = normalize_sql r)) as [Heq|Hne].
  - rewrite bool_decide_eq_true_2 by exact Heq. split; [left|]; tauto.
  - rewrite bool_decide_eq_false_2 by exact Hne.
    split; [right; reflexivity|]. split; [discriminate | contradiction].
Qed.

(** X4: the exact-match score is 0 or 1, does not depend on the order of
    its arguments, and whenever it is 1 the similarity of the two
    statements is 1 as well. *)
Theorem exact_match_score_facts :
  forall predicted_sql reference_sql : str,
    (exact_match_score predicted_sql reference_sql = 1%Q
     \/ exact_match_score predicted_sql reference_sql = 0%Q)
    /\ exact_match_score predicted_sql reference_sql
       = exact_match_score reference_sql predicted_sql
    /\ (exact_match_score predicted_sql reference_sql = 1%Q ->
        sql_similarity predicted_sql reference_sql = 1%Q).
Proof.
  intros p r. unfold exact_match_score, str_eqb.
  destruct (decide (normalize_sql p = normalize_sql r)) as [Heq|Hne].
  - rewrite !bool_decide_eq_true_2 by congruence.
    repeat split; [left; reflexivity|].
    intros _. apply sql_similarity_same_normal_form. exact Heq.
  - rewrite !bool_decide_eq_false_2 by congruence.
    repeat split; [right; reflexivity|]. discriminate.
Qed.

Lemma exact_match_score_facts_witness :
  exact_match_score (lit "SELECT 1;") (lit "select  1") = 1%Q
  /\ sql_similarity (lit "SELECT 1;") (lit "select  1") = 1%Q.
Proof.
  split; [vm_compute; reflexivity|].
  apply (exact_match_score_facts (lit "SELECT 1;") (lit "select  1")).
  vm_compute. reflexivity.
Defined.

(** ** The range of the similarity score *)

Module DifflibRange.
Import Difflib DifflibFacts.

Section BoundsB.

Variables (a b : str) (b2j : gmap ascii (list nat)).
Variables (alo blo bhi : nat).
Hypothesis Hb : (blo <= bhi)%nat.

Lemma scan_row_bounds_b i row idxs new best :
  (forall j, j2len_get_pred row j <= j - blo)%nat ->
  (forall j, default 0%nat (new !! j) <= S j - blo)%nat ->
  (blo <= best.1.2)%nat -> (best.1.2 + best.2 <= bhi)%nat ->
  let st := scan_row i blo bhi row idxs new best in
  (forall j, default 0%nat (st.1 !! j) <= S j - blo)%nat
  /\ (blo <= st.2.1.2)%nat /\ (st.2.1.2 + st.2.2 <= bhi)%nat.
Proof.
  intros Hrow. revert new best.
  induction idxs as [|j rest IH]; intros new best Hnew Hb1 Hb2; simpl.
  - auto.
  - case_ltb; [apply IH; assumption|].
    case_leb; [simpl; auto|].
    apply IH.
    + intros j'. destruct (decide (j = j')) as [->|Hne].
      * rewrite lookup_insert_eq. simpl. specialize (Hrow j'). lia.
      * rewrite lookup_insert_ne by exact Hne. apply Hnew.
    + specialize (Hrow j). case_ltb; simpl; lia.
    + specialize (Hrow j). case_ltb; simpl; lia.
Qed.

Lemma rows_bounds_b l :
  let st := fold_left (row_step a b2j blo bhi) l (∅, (alo, blo, 0%nat)) in
  (forall j, j2len_get_pred st.1 j <= j - blo)%nat
  /\ (blo <= st.2.1.2)%nat /\ (st.2.1.2 + st.2.2 <= bhi)%nat.
Proof.
  induction l as [|i l IH] using rev_ind.
  - cbn [fold_left fst snd]. repeat split; try lia.
    intros j. rewrite j2len_get_pred_empty. lia.
  - rewrite fold_left_app. cbn [fold_left].
    set (st := fold_left _ l _) in *.
    destruct IH as (Hrow & Hb1 & Hb2). unfold row_step.
    destruct (scan_row_bounds_b i st.1
                (match a !! i with
                 | Some elt => default [] (b2j !! elt)
                 | None => []
                 end) ∅ st.2) as (Hnew & Hb1' & Hb2'); try assumption.
    + intros j. rewrite lookup_empty. simpl. lia.
    + repeat split; try assumption.
      intros [|j]; simpl; [lia|]. specialize (Hnew j). lia.
Qed.

Lemma extend_back_bounds_b besti bestj bestsize :
  (blo <= bestj)%nat ->
  let r := extend_back a b alo blo besti bestj bestsize in
  (blo <= r.1.2)%nat /\ (r.1.2 + r.2 = bestj + bestsize)%nat.
Proof.
  revert bestj bestsize.
  induction besti as [|i IH]; intros bestj bestsize Hj; simpl; [lia|].
  destruct bestj as [|j]; simpl; [lia|].
  destruct (_ && _ && _) eqn:Hc; simpl; [|lia].
  apply andb_prop in Hc as [Hc _]. apply andb_prop in Hc as [_ Hc].
  apply Nat.ltb_lt in Hc.
  destruct (IH j (S bestsize) ltac:(lia)) as [H1 H2]. lia.
Qed.

Lemma extend_fwd_bounds_b fuel ahi besti bestj bestsize :
  (bestj + bestsize <= bhi)%nat ->
  (bestj + extend_fwd fuel a b ahi bhi besti bestj bestsize <= bhi)%nat.
Proof.
  revert bestsize. induction fuel as [|fuel IH]; intros bestsize H; simpl; [lia|].
  destruct (_ && _ && _) eqn:Hc; [|lia].
  apply andb_prop in Hc as [Hc _]. apply andb_prop in Hc as [_ Hc].
  apply Nat.ltb_lt in Hc. apply IH. lia.
Qed.

(** The match lies inside the range of [b] that was searched. *)
Lemma find_longest_match_bounds_b ahi :
  let r := find_longest_match a b b2j alo ahi blo bhi in
  (blo <= r.1.2)%nat /\ (r.1.2 + r.2 <= bhi)%nat.
Proof.
  unfold find_longest_match.
  pose proof (rows_bounds_b (seq alo (ahi - alo))) as Hrows.
  destruct (fold_left _ _ _) as [row [[bi bj] bk]].
  destruct Hrows as (_ & Hb1 & Hb2). simpl in Hb1, Hb2. simpl.
  pose proof (extend_back_bounds_b bi bj bk Hb1) as Hback.
  destruct (extend_back a b alo blo bi bj bk) as [[bi' bj'] bk'].
  simpl in Hback. simpl.
  pose proof (extend_fwd_bounds_b (ahi - (bi' + bk')) ahi bi' bj' bk' ltac:(lia)).
  lia.
Qed.

End BoundsB.

Lemma blocks_size_app l1 l2 :
  blocks_size (l1 ++ l2) = (blocks_size l1 + blocks_size l2)%nat.
Proof. unfold blocks_size. rewrite map_app, list_sum_app. reflexivity. Qed.

Lemma queue_size_b_cons alo ahi blo bhi queue :
  queue_size_b ((alo, ahi, blo, bhi) :: queue)
  = ((bhi - blo) + queue_size_b queue)%nat.
Proof. reflexivity. Qed.

(** The blocks found never hold more elements than the ranges searched,
    on either side. *)
Lemma match_loop_sizes (a b : str) b2j fuel queue blocks :
  (forall r : range_t, r ∈ queue ->
     (r.1.1.1 <= r.1.1.2)%nat /\ (r.1.2 <= r.2)%nat) ->
  let found := (match_loop fuel a b b2j queue blocks).1 in
  (blocks_size found <= blocks_size blocks + queue_size queue)%nat
  /\ (blocks_size found <= blocks_size blocks + queue_size_b queue)%nat.
Proof.
  revert queue blocks.
  induction fuel as [|fuel IH]; intros queue blocks Hq.
  - destruct queue; simpl; lia.
  - destruct queue as [|[[[alo ahi] blo] bhi] queue]; [simpl; lia|].
    destruct (Hq (alo, ahi, blo, bhi) ltac:(left)) as [Ha Hb]. simpl in Ha, Hb.
    assert (Hrest : forall r : range_t, r ∈ queue ->
                      (r.1.1.1 <= r.1.1.2)%nat /\ (r.1.2 <= r.2)%nat)
      by (intros r Hin; apply Hq; right; exact Hin).
    cbn [match_loop].
    pose proof (find_longest_match_bounds a b b2j alo blo bhi ahi Ha) as Hba.
    pose proof (find_longest_match_bounds_b a b b2j alo blo bhi Hb ahi) as Hbb.
    destruct (find_longest_match a b b2j alo ahi blo bhi) as [[i j] k].
    simpl in Hba, Hbb. destruct Hba as [Ha1 Ha2]. destruct Hbb as [Hb1 Hb2].
    rewrite queue_size_cons, queue_size_b_cons.
    case_ltb.
    + match goal with
      | |- context [match_loop fuel a b b2j ?q ?bl] =>
          specialize (IH q bl)
      end.
      destruct IH as [IH1 IH2].
      * intros r Hin.
        destruct ((i + k <? ahi)%nat && (j + k <? bhi)%nat) eqn:Hc2.
        -- apply andb_prop in Hc2 as [Hc2a Hc2b].
           apply Nat.ltb_lt in Hc2a. apply Nat.ltb_lt in Hc2b.
           apply elem_of_cons in Hin as [->|Hin]; [simpl; lia|].
           destruct ((alo <? i)%nat && (blo <? j)%nat) eqn:Hc1; [|auto].
           apply andb_prop in Hc1 as [Hc1a Hc1b].
           apply Nat.ltb_lt in Hc1a. apply Nat.ltb_lt in Hc1b.
           apply elem_of_cons in Hin as [->|Hin]; [simpl; lia | auto].
        -- destruct ((alo <? i)%nat && (blo <? j)%nat) eqn:Hc1; [|auto].
           apply andb_prop in Hc1 as [Hc1a Hc1b].
           apply Nat.ltb_lt in Hc1a. apply Nat.ltb_lt in Hc1b.
           apply elem_of_cons in Hin as [->|Hin]; [simpl; lia | auto].
      * rewrite blocks_size_app in IH1, IH2.
        unfold blocks_size at 3 in IH1. unfold blocks_size at 3 in IH2.
        simpl in IH1, IH2.
        destruct ((i + k <? ahi)%nat && (j + k <? bhi)%nat);
          destruct ((alo <? i)%nat && (blo <? j)%nat);
          rewrite ?queue_size_cons in IH1;
          rewrite ?queue_size_b_cons in IH2; lia.
    + destruct (IH queue blocks Hrest). lia.
Qed.

Lemma blocks_size_insert_sorted x l :
  blocks_size (insert_sorted x l) = (x.2 + blocks_size l)%nat.
Proof.
  induction l as [|y l IH]; simpl; [reflexivity|].
  destruct (match_leb x y); [reflexivity|].
  unfold blocks_size in *. simpl. rewrite IH. lia.
Qed.

Lemma blocks_size_sort_blocks l : blocks_size (sort_blocks l) = blocks_size l.
Proof.
  unfold sort_blocks. induction l as [|x l IH]; simpl; [reflexivity|].
  rewrite blocks_size_insert_sorted, IH. reflexivity.
Qed.

Lemma blocks_size_collapse_adjacent cur blocks acc :
  blocks_size (collapse_adjacent cur blocks acc)
  = (blocks_size acc + cur.2 + blocks_size blocks)%nat.
Proof.
  revert cur acc. induction blocks as [|[[i2 j2] k2] rest IH];
    intros [[i1 j1] k1] acc; simpl.
  - case_ltb; [rewrite blocks_size_app|]; unfold blocks_size; simpl; lia.
  - destruct (_ && _)%nat.
    + rewrite IH. unfold blocks_size. simpl. lia.
    + rewrite IH. case_ltb; [rewrite blocks_size_app|];
        unfold blocks_size; simpl; lia.
Qed.

(** The number of matched characters is at most the length of either
    string. *)
Lemma matches_le (a b : str) :
  (blocks_size (get_matching_blocks a b).1 <= length a)%nat
  /\ (blocks_size (get_matching_blocks a b).1 <= length b)%nat.
Proof.
  unfold get_matching_blocks.
  pose proof (match_loop_sizes a b (chain_b b) (S (length a))
                [(0%nat, length a, 0%nat, length b)] []) as H.
  destruct (match_loop _ _ _ _ _ _) as [blocks unprocessed].
  simpl in H. destruct H as [H1 H2].
  { intros r Hin. apply list_elem_of_singleton in Hin as ->. simpl. lia. }
  cbn [fst]. rewrite blocks_size_app, blocks_size_collapse_adjacent,
    blocks_size_sort_blocks.
  unfold queue_size, queue_size_b, blocks_size in *. simpl in *. lia.
Qed.

Lemma calculate_ratio_range m t :
  (2 * m <= t)%nat -> (0 <= calculate_ratio m t <= 1)%Q.
Proof.
  intros H. unfold calculate_ratio. case_ltb; [|split; discriminate].
  rewrite Qred_correct.
  assert (Hpos : (0 < inject_Z (Z.of_nat t))%Q)
    by (unfold Qlt; simpl; lia).
  split.
  - apply Qle_shift_div_l; [exact Hpos|]. unfold Qle. simpl. lia.
  - apply Qle_shift_div_r; [exact Hpos|]. unfold Qle. simpl. lia.
Qed.

Lemma ratio_range (a b : str) : (0 <= ratio a b <= 1)%Q.
Proof.
  unfold ratio. apply calculate_ratio_range.
  destruct (matches_le a b) as [Ha Hb].
  unfold blocks_size in Ha, Hb. lia.
Qed.

End DifflibRange.

Lemma sql_similarity_range (sql1 sql2 : str) :
  (0 <= sql_similarity sql1 sql2 <= 1)%Q.
Proof. unfold sql_similarity. apply DifflibRange.ratio_range. Qed.

(** X5: the similarity of any two statements lies between 0 and 1. *)
Theorem sql_similarity_between_0_and_1 :
  forall sql1 sql2 : str,
    (0 <= sql_similarity sql1 sql2)%Q /\ (sql_similarity sql1 sql2 <= 1)%Q.
Proof. intros sql1 sql2. apply sql_similarity_range. Qed.

(** ** The executor, once more *)

Section ExecutorEffects.

Variable E : Engine.

Ltac run_execute_sql :=
  unfold execute_sql, connect, execute_sql_body, bind, cursor_execute,
    fetchall, conn_commit, conn_close, ret, emit; simpl.

(** What one call of [execute_sql] does to the world. *)
Lemma execute_sql_effect (sql : str) (w : World E) :
  exists r w' evs,
    execute_sql E sql w = (inr r, w')
    /\ open_conns w' = open_conns w
    /\ log w' = log w ++ evs
    /\ count_events is_connect evs = count_events is_close evs
    /\ (count_events is_execute evs <= 1)%nat
    /\ (r.1 = false -> disk w' = disk w)
    /\ (sql_startswith "SELECT" sql = true ->
        disk w' = disk w /\ count_events is_commit evs = 0%nat).
Proof.
  run_execute_sql.
  destruct (eng_connect E (disk w)) as [e0|] eqn:Hconn.
  { exists (false, Str (exn_message e0)), w, [].
    rewrite app_nil_r. repeat split. unfold count_events. simpl. lia. }
  destruct (sql_startswith "SELECT" sql) eqn:Hsel; simpl;
    destruct (eng_execute E sql (disk w)) as [e1|[cur db']] eqn:Hexec; simpl.
  - eexists _, _, [EvConnect; EvExecute sql; EvClose].
    rewrite <- !app_assoc. repeat split; unfold count_events; simpl; lia.
  - destruct (cur_fetchall cur) as [e2|rows] eqn:Hfetch; simpl;
      eexists _, _, [EvConnect; EvExecute sql; EvFetchall; EvClose];
      rewrite <- !app_assoc; repeat split; unfold count_events; simpl; lia.
  - eexists _, _, [EvConnect; EvExecute sql; EvClose].
    rewrite <- !app_assoc.
    repeat split; try discriminate; unfold count_events; simpl; lia.
  - destruct (eng_commit E db') as [e2|] eqn:Hcommit; simpl;
      eexists _, _, [EvConnect; EvExecute sql; EvCommit; EvClose];
      rewrite <- !app_assoc;
      repeat split; try discriminate; unfold count_events; simpl; lia.
Qed.


End ExecutorEffects.


Lemma rstrip_by_app p (k t : str) :
  rstrip_by p (k ++ t)
  = match rstrip_by p t with
    | [] => rstrip_by p k
    | t' => k ++ t'
    end.
Proof.
  induction k as [|c k IH]; simpl.
  - destruct (rstrip_by p t); reflexivity.
  - rewrite IH. destruct (rstrip_by p t) as [|d t'] eqn:Ht; [reflexivity|].
    destruct k; reflexivity.
Qed.

Lemma startswith_nil (t : str) : startswith t [] = true.
Proof. destruct t; reflexivity. Qed.

Lemma startswith_app (k t : str) : startswith (k ++ t) k = true.
Proof.
  induction k as [|c k IH]; simpl; [apply startswith_nil|].
  rewrite Ascii.eqb_refl, IH. reflexivity.
Qed.

Lemma isspace_upper_char c : isspace (upper_char c) = isspace c.
Proof. each_ascii c. Qed.

Lemma upper_no_space (kw : str) :
  forallb (fun c => negb (isspace c)) (upper kw) = true ->
  Forall (fun c => isspace c = false) kw.
Proof.
  unfold upper. induction kw as [|c kw IH]; intros Hk; [constructor|].
  simpl in Hk. apply andb_prop in Hk as [Hc Hk].
  rewrite isspace_upper_char in Hc. constructor.
  - destruct (isspace c); [discriminate | reflexivity].
  - apply IH. exact Hk.
Qed.

Lemma keyword_no_space (kw : str) (keyword : string) :
  upper kw = lit keyword ->
  forallb (fun c => negb (isspace c)) (lit keyword) = true ->
  Forall (fun c => isspace c = false) kw.
Proof. intros Hup Hk. apply upper_no_space. rewrite Hup. exact Hk. Qed.

(** A statement whose text after the leading whitespace begins with the
    keyword, in any case, is classified under that keyword. *)
Lemma sql_startswith_prefix (keyword : string) (ws kw t : str) :
  forallb isspace ws = true ->
  upper kw = lit keyword ->
  forallb (fun c => negb (isspace c)) (lit keyword) = true ->
  sql_startswith keyword (ws ++ kw ++ t) = true.
Proof.
  intros Hws Hup Hk. unfold sql_startswith, strip.
  pose proof (keyword_no_space kw keyword Hup Hk) as Hns.
  rewrite lstrip_by_app_l by exact Hws.
  destruct kw as [|c kw].
  - simpl in Hup. rewrite <- Hup. apply startswith_nil.
  - inversion Hns as [|? ? Hc Hkw]; subst.
    assert (Hl : lstrip_by isspace ((c :: kw) ++ t) = (c :: kw) ++ t)
      by (simpl; rewrite Hc; reflexivity).
    rewrite Hl, rstrip_by_app.
    assert (Hr : rstrip_by isspace (c :: kw) = c :: kw).
    { apply rstrip_by_fixed. intros d Hd.
      rewrite Forall_forall in Hns. apply Hns.
      apply last_Some_elem_of. exact Hd. }
    destruct (rstrip_by isspace t) as [|d t'].
    + rewrite Hr, Hup. rewrite <- (app_nil_r (lit keyword)) at 1.
      apply startswith_app.
    + unfold upper. rewrite map_app. fold (upper (c :: kw)). rewrite Hup.
      apply startswith_app.
Qed.

(** X7: the classification looks at a prefix of the text, not at a word:
    whatever follows the six letters of SELECT (in any case, after any
    leading whitespace), the statement is run as a read, so no commit is
    made and the database stays as it was. *)
Theorem execute_sql_select_prefix :
  forall (E : Engine) (ws kw t : str) (w : World E),
    forallb isspace ws = true ->
    upper kw = lit "SELECT" ->
    sql_startswith "SELECT" (ws ++ kw ++ t) = true
    /\ exists r w' evs,
         execute_sql E (ws ++ kw ++ t) w = (inr r, w')
         /\ log w' = log w ++ evs
         /\ count_events is_commit evs = 0%nat
         /\ disk w' = disk w.
Proof.
  intros E ws kw t w Hws Hup.
  assert (Hsel : sql_startswith "SELECT" (ws ++ kw ++ t) = true)
    by (apply sql_startswith_prefix; [exact Hws | exact Hup | reflexivity]).
  split; [exact Hsel|].
  destruct (execute_sql_effect E (ws ++ kw ++ t) w)
    as (r & w' & evs & Hrun & _ & Hlog & _ & _ & _ & Hread).
  destruct (Hread Hsel) as [Hdisk Hcommit].
  exists r, w', evs. auto.
Qed.

Lemma execute_sql_select_prefix_witness :
  sql_startswith "SELECT" (lit "  " ++ lit "Select" ++ lit "ed_rows()") = true.
Proof.
  apply (execute_sql_select_prefix MiniDb.engine (lit "  ") (lit "Select")
           (lit "ed_rows()") (MiniDb.world None)); reflexivity.
Defined.

(** ** The case evaluator and the aggregator, once more *)

Lemma count_events_app f (l1 l2 : list event) :
  count_events f (l1 ++ l2) = (count_events f l1 + count_events f l2)%nat.
Proof. unfold count_events. rewrite List.filter_app, length_app. reflexivity. Qed.

Section AggregatorFacts.

Variable E : Engine.
Variable generate_sql : str -> str.

(** What one case evaluation returns and does. *)
Lemma evaluate_single_query_effect (question reference_sql : str) (w : World E) :
  exists res w' evs,
    evaluate_single_query E generate_sql question reference_sql w = (inr res, w')
    /\ cr_question res = question
    /\ cr_reference_sql res = reference_sql
    /\ cr_predicted_sql res = generate_sql question
    /\ cr_exact_match res
       = exact_match_score (generate_sql question) reference_sql
    /\ cr_similarity res = sql_similarity (generate_sql question) reference_sql
    /\ (cr_execution_accuracy res = 1%Q \/ cr_execution_accuracy res = 0%Q)
    /\ open_conns w' = open_conns w
    /\ log w' = log w ++ evs
    /\ (count_events is_execute evs <= 3)%nat
    /\ count_events is_connect evs = count_events is_close evs.
Proof.
  destruct (execute_sql_effect E (generate_sql question) w)
    as ([ok1 v1] & w1 & ev1 & H1 & Ho1 & Hl1 & Hc1 & Hx1 & _).
  destruct (execute_sql_effect E reference_sql w1)
    as ([ok2 v2] & w2 & ev2 & H2 & Ho2 & Hl2 & Hc2 & Hx2 & _).
  destruct (execute_sql_effect E (generate_sql question) w2)
    as ([ok3 v3] & w3 & ev3 & H3 & Ho3 & Hl3 & Hc3 & Hx3 & _).
  assert (Hacc : exists acc,
             execution_accuracy E (generate_sql question) reference_sql w
             = (inr acc, w2) /\ (acc = 1%Q \/ acc = 0%Q)).
  { unfold execution_accuracy, bind. rewrite H1, H2. unfold ret.
    destruct ok1, ok2; simpl; eauto. destruct (py_eqb v1 v2); eauto. }
  destruct Hacc as (acc & Hacc & Hval).
  eexists _, w3, (ev1 ++ ev2 ++ ev3).
  unfold evaluate_single_query, bind. rewrite Hacc, H3. unfold ret.
  split; [reflexivity|]. simpl. repeat split; try exact Hval.
  - congruence.
  - rewrite Hl3, Hl2, Hl1, <- !app_assoc. reflexivity.
  - rewrite !count_events_app. lia.
  - rewrite !count_events_app. lia.
Qed.

(** What the loop of [evaluate_dataset] appends and does. *)
Lemma evaluate_each_effect (test_data : list TestCase)
  (results : list CaseResult) (w : World E) :
  exists new w' evs,
    evaluate_each E generate_sql test_data results w = (inr (results ++ new), w')
    /\ map cr_question new = map question test_data
    /\ map cr_reference_sql new = map sql test_data
    /\ map cr_predicted_sql new
       = map (fun c => generate_sql (question c)) test_data
    /\ Forall2 (fun c r =>
                  cr_exact_match r
                  = exact_match_score (generate_sql (question c)) (sql c)
                  /\ cr_similarity r
                     = sql_similarity (generate_sql (question c)) (sql c)
                  /\ (cr_execution_accuracy r = 1%Q
                      \/ cr_execution_accuracy r = 0%Q)) test_data new
    /\ open_conns w' = open_conns w
    /\ log w' = log w ++ evs
    /\ (count_events is_execute evs <= 3 * length test_data)%nat
    /\ count_events is_connect evs = count_events is_close evs.
Proof.
  revert results w. induction test_data as [|item rest IH]; intros results w.
  - exists [], w, []. simpl. rewrite !app_nil_r.
    repeat split; try constructor; unfold count_events; simpl; lia.
  - destruct (evaluate_single_query_effect (question item) (sql item) w)
      as (res & w1 & ev1 & Hrun & Hq & Hr & Hp & Hem & Hsim & Hacc
          & Ho & Hl & Hx & Hc).
    destruct (IH (results ++ [res]) w1)
      as (new & w2 & ev2 & Hrun2 & Hq2 & Hr2 & Hp2 & Hall & Ho2 & Hl2 & Hx2 & Hc2).
    exists (res :: new), w2, (ev1 ++ ev2).
    simpl. unfold bind. rewrite Hrun, Hrun2, <- app_assoc. simpl.
    repeat split; try congruence.
    + constructor; [auto | exact Hall].
    + rewrite Hl2, Hl, <- app_assoc. reflexivity.
    + rewrite count_events_app. lia.
    + rewrite !count_events_app. lia.
Qed.


End AggregatorFacts.

Lemma inject_Z_len_cons {A} (x : A) (l : list A) :
  (inject_Z (len (x :: l)) == 1 + inject_Z (len l))%Q.
Proof.
  unfold len. rewrite length_cons, Nat2Z.inj_succ, <- Z.add_1_l.
  rewrite inject_Z_plus. reflexivity.
Qed.

Lemma Qsum_range (l : list Q) :
  Forall (fun x => 0 <= x <= 1)%Q l ->
  (0 <= Qsum l <= inject_Z (len l))%Q.
Proof.
  induction 1 as [|x l Hx Hl IH].
  - unfold Qsum, len. simpl. split; apply Qle_refl.
  - rewrite inject_Z_len_cons. change (Qsum (x :: l)) with (x + Qsum l)%Q.
    lra.
Qed.

Lemma Qsum_ones (l : list Q) :
  Forall (fun x => x = 1%Q) l -> (Qsum l == inject_Z (len l))%Q.
Proof.
  induction 1 as [|x l Hx Hl IH].
  - reflexivity.
  - rewrite inject_Z_len_cons. change (Qsum (x :: l)) with (x + Qsum l)%Q.
    subst x. rewrite IH. reflexivity.
Qed.

Lemma inject_Z_len_pos {A} (l : list A) :
  l <> [] -> (0 < inject_Z (len l))%Q.
Proof.
  intros H. destruct l as [|x l]; [contradiction|].
  unfold len, Qlt. simpl. lia.
Qed.

(** The mean of values between 0 and 1 is a number between 0 and 1. *)
Lemma np_mean_range (l : list Q) :
  l <> [] -> Forall (fun x => 0 <= x <= 1)%Q l ->
  exists q, np_mean l = Float q /\ (0 <= q <= 1)%Q.
Proof.
  intros Hne Hall. pose proof (Qsum_range l Hall) as [H0 H1].
  pose proof (inject_Z_len_pos l Hne) as Hpos.
  destruct l as [|x l]; [contradiction|].
  eexists. split; [reflexivity|]. rewrite Qred_correct. split.
  - apply Qle_shift_div_l; [exact Hpos|]. lra.
  - apply Qle_shift_div_r; [exact Hpos|]. lra.
Qed.

Lemma np_mean_ones (l : list Q) :
  l <> [] -> Forall (fun x => x = 1%Q) l -> np_mean l = Float 1.
Proof.
  intros Hne Hall. pose proof (Qsum_ones l Hall) as Hsum.
  pose proof (inject_Z_len_pos l Hne) as Hpos.
  destruct l as [|x l]; [contradiction|].
  unfold np_mean. f_equal. change 1%Q with (Qred 1). apply Qred_complete.
  rewrite Hsum. apply Qmult_inv_r. lra.
Qed.

Section AggregatorRange.

Variable E : Engine.
Variable generate_sql : str -> str.

(** X9: on a non-empty list of cases each of the four aggregate metrics
    is a number between 0 and 1. *)
Theorem evaluate_dataset_metrics_in_range :
  forall (test_data : list TestCase) (w : World E),
    test_data <> [] ->
    exists report w' m1 m2 m3 m4,
      evaluate_dataset E generate_sql test_data w = (inr report, w')
      /\ exact_match_accuracy report = Float m1 /\ (0 <= m1 <= 1)%Q
      /\ average_similarity report = Float m2 /\ (0 <= m2 <= 1)%Q
      /\ rp_execution_accuracy report = Float m3 /\ (0 <= m3 <= 1)%Q
      /\ execution_success_rate report = Float m4 /\ (0 <= m4 <= 1)%Q.
Proof.
  intros test_data w Hne.
  destruct (evaluate_each_effect E generate_sql test_data [] w)
    as (new & w' & evs & Hrun & Hq & _ & _ & Hall & _).
  simpl in Hrun.
  assert (Hnew : new <> []).
  { intros ->. destruct test_data; [contradiction | discriminate]. }
  assert (Hone : forall x : Q, x = 1%Q \/ x = 0%Q -> (0 <= x <= 1)%Q)
    by (intros x [->| ->]; split; discriminate).
  assert (H1 : Forall (fun x => 0 <= x <= 1)%Q (map cr_exact_match new)).
  { apply Forall_map. clear - Hall Hone.
    induction Hall as [|c r cs rs (Hem & _) _ IH]; constructor; [|exact IH].
    apply Hone. rewrite Hem.
    apply (proj1 (exact_match_score_cases _ _)). }
  assert (H2 : Forall (fun x => 0 <= x <= 1)%Q (map cr_similarity new)).
  { apply Forall_map. clear - Hall.
    induction Hall as [|c r cs rs (_ & Hsim & _) _ IH]; constructor; [|exact IH].
    rewrite Hsim. apply sql_similarity_range. }
  assert (H3 : Forall (fun x => 0 <= x <= 1)%Q (map cr_execution_accuracy new)).
  { apply Forall_map. clear - Hall Hone.
    induction Hall as [|c r cs rs (_ & _ & Hacc) _ IH]; constructor; [|exact IH].
    apply Hone, Hacc. }
  assert (H4 : Forall (fun x => 0 <= x <= 1)%Q
                 (map (fun r => Q_of_bool (cr_is_executable r)) new)).
  { apply Forall_map, Forall_forall. intros r _.
    destruct (cr_is_executable r); split; discriminate. }
  assert (Hm : forall {A} (f : A -> Q) (l : list A), l <> [] -> map f l <> [])
    by (intros A f [|x l] H; [contradiction | discriminate]).
  destruct (np_mean_range _ (Hm _ cr_exact_match _ Hnew) H1) as (m1 & E1 & R1).
  destruct (np_mean_range _ (Hm _ cr_similarity _ Hnew) H2) as (m2 & E2 & R2).
  destruct (np_mean_range _ (Hm _ cr_execution_accuracy _ Hnew) H3)
    as (m3 & E3 & R3).
  destruct (np_mean_range _ (Hm _ (fun r => Q_of_bool (cr_is_executable r)) _ Hnew) H4)
    as (m4 & E4 & R4).
  eexists _, w', m1, m2, m3, m4.
  unfold evaluate_dataset, bind. rewrite Hrun. unfold ret.
  split; [reflexivity|]. simpl. auto 10.
Qed.

(** X10: when the generated statement of every case has the normal form
    of the reference statement, and there is at least one case, the
    exact-match accuracy and the average similarity of the report are
    both 1. *)
Theorem evaluate_dataset_perfect_text :
  forall (test_data : list TestCase) (w : World E),
    test_data <> [] ->
    Forall (fun c => normalize_sql (generate_sql (question c))
                     = normalize_sql (sql c)) test_data ->
    exists report w',
      evaluate_dataset E generate_sql test_data w = (inr report, w')
      /\ exact_match_accuracy report = Float 1
      /\ average_similarity report = Float 1.
Proof.
  intros test_data w Hne Hsame.
  destruct (evaluate_each_effect E generate_sql test_data [] w)
    as (new & w' & evs & Hrun & Hq & _ & _ & Hall & _).
  simpl in Hrun.
  assert (Hnew : new <> []).
  { intros ->. destruct test_data; [contradiction | discriminate]. }
  assert (H1 : Forall (fun x => x = 1%Q) (map cr_exact_match new)
               /\ Forall (fun x => x = 1%Q) (map cr_similarity new)).
  { clear - Hall Hsame.
    induction Hall as [|c r cs rs (Hem & Hsim & _) _ IH]; simpl.
    - split; constructor.
    - inversion Hsame as [|? ? Hc Hcs]; subst.
      destruct (IH Hcs) as [IH1 IH2]. split; constructor; try assumption.
      + rewrite Hem. unfold exact_match_score. rewrite Hc, str_eqb_refl.
        reflexivity.
      + rewrite Hsim. apply sql_similarity_same_normal_form. exact Hc. }
  destruct H1 as [H1 H2].
  assert (Hm : forall {A} (f : A -> Q) (l : list A), l <> [] -> map f l <> [])
    by (intros A f [|x l] H; [contradiction | discriminate]).
  eexists _, w'. unfold evaluate_dataset, bind. rewrite Hrun. unfold ret.
  split; [reflexivity|]. simpl. split.
  - apply np_mean_ones; [apply Hm, Hnew | exact H1].
  - apply np_mean_ones; [apply Hm, Hnew | exact H2].
Qed.

End AggregatorRange.

Lemma evaluate_dataset_metrics_in_range_witness :
  exists report w' m1 m2 m3 m4,
    evaluate_dataset MiniDb.engine (MiniDb.always "SELECT 1")
      [case_of "one" "SELECT 1"; case_of "ids" "SELECT id FROM t"]
      (MiniDb.world None) = (inr report, w')
    /\ exact_match_accuracy report = Float m1 /\ (0 <= m1 <= 1)%Q
    /\ average_similarity report = Float m2 /\ (0 <= m2 <= 1)%Q
    /\ rp_execution_accuracy report = Float m3 /\ (0 <= m3 <= 1)%Q
    /\ execution_success_rate report = Float m4 /\ (0 <= m4 <= 1)%Q.
Proof.
  apply (evaluate_dataset_metrics_in_range MiniDb.engine
           (MiniDb.always "SELECT 1")). discriminate.
Defined.

Lemma evaluate_dataset_perfect_text_witness :
  exists report w',
    evaluate_dataset MiniDb.engine (MiniDb.always "select 1;")
      [case_of "one" "SELECT 1"; case_of "uno" " SELECT  1 "]
      (MiniDb.world None) = (inr report, w')
    /\ exact_match_accuracy report = Float 1
    /\ average_similarity report = Float 1.
Proof.
  apply (evaluate_dataset_perfect_text MiniDb.engine
           (MiniDb.always "select 1;")).
  - discriminate.
  - repeat constructor.
Defined.

(** ** The corpus sampler, once more *)

(** For a count between 0 and the corpus size the sample is the stated
    selection. *)
Lemma select_test_subset_selection (corpus : list TestCase) (count : Z) :
  0 <= count -> count < len corpus ->
  select_test_subset corpus count = sample_stated corpus count.
Proof.
  intros H0 Hlt.
  unfold select_test_subset, sample_stated, bucket.
  destruct (Z.geb_spec count (len corpus)) as [Hge|_]; [lia|].
  set (selects := List.filter (fun c => sql_startswith "SELECT" (sql c)) corpus).
  set (inserts := List.filter (fun c => sql_startswith "INSERT" (sql c)) corpus).
  set (updates := List.filter (fun c => sql_startswith "UPDATE" (sql c)) corpus).
  set (deletes := List.filter (fun c => sql_startswith "DELETE" (sql c)) corpus).
  cbv zeta.
  set (sc := Z.min (count / 2) (len selects)).
  set (ic := Z.min (count / 6) (len inserts)).
  set (uc := Z.min (count / 6) (len updates)).
  set (dc := Z.min (count - sc - ic - uc) (len deletes)).
  assert (Hlen : forall l : list TestCase, 0 <= len l) by (intros; unfold len; lia).
  pose proof (Hlen selects). pose proof (Hlen inserts).
  pose proof (Hlen updates). pose proof (Hlen deletes).
  pose proof (Z.mul_div_le count 2 ltac:(lia)).
  pose proof (Z.mul_div_le count 6 ltac:(lia)).
  pose proof (Z.div_pos count 2 H0 ltac:(lia)).
  pose proof (Z.div_pos count 6 H0 ltac:(lia)).
  assert (Hsc : 0 <= sc <= len selects) by (unfold sc; lia).
  assert (Hic : 0 <= ic) by (unfold ic; lia).
  assert (Huc : 0 <= uc) by (unfold uc; lia).
  assert (Hdc : 0 <= dc) by (unfold dc, sc, ic, uc; lia).
  rewrite !py_slice_to_nonneg by lia. simpl ([] ++ _).
  rewrite <- !app_assoc.
  set (picked := first_n sc selects ++ first_n ic inserts
                 ++ first_n uc updates ++ first_n dc deletes).
  destruct (Z.gtb_spec (count - len picked) 0) as [Hrem|Hrem].
  - rewrite py_slice_nonneg by lia.
    replace (sc + (count - len picked) - sc) with (count - len picked) by lia.
    reflexivity.
  - assert (Hb : forall X : list TestCase,
               first_n (count - len picked) X = []).
    { intros X. unfold first_n.
      replace (Z.to_nat (count - len picked)) with 0%nat by lia.
      reflexivity. }
    rewrite Hb, app_nil_r. reflexivity.
Qed.

Lemma first_n_subset {A} (k : Z) (l : list A) x : x ∈ first_n k l -> x ∈ l.
Proof. unfold first_n. apply subseteq_take. Qed.

Lemma drop_subset {A} (n : nat) (l : list A) x : x ∈ drop n l -> x ∈ l.
Proof. apply subseteq_drop. Qed.

Lemma bucket_elem (keyword : string) (corpus : list TestCase) c :
  c ∈ bucket keyword corpus ->
  c ∈ corpus /\ sql_startswith keyword (sql c) = true.
Proof.
  unfold bucket. rewrite list_elem_of_In, List.filter_In, <- list_elem_of_In.
  tauto.
Qed.

(** X11: for a count between 0 and the corpus size, the sample has at
    most [count] cases, each one a case of the corpus whose statement
    starts with SELECT, INSERT, UPDATE or DELETE: cases of another kind
    are never sampled. *)
Theorem select_test_subset_members :
  forall (corpus : list TestCase) (count : Z),
    0 <= count -> count < len corpus ->
    len (select_test_subset corpus count) <= count
    /\ forall c, c ∈ select_test_subset corpus count ->
         c ∈ corpus
         /\ (sql_startswith "SELECT" (sql c) = true
             \/ sql_startswith "INSERT" (sql c) = true
             \/ sql_startswith "UPDATE" (sql c) = true
             \/ sql_startswith "DELETE" (sql c) = true).
Proof.
  intros corpus count H0 Hlt.
  rewrite (select_test_subset_selection corpus count H0 Hlt).
  unfold sample_stated. cbv zeta. split.
  - unfold first_n at 1. unfold len. rewrite length_take. lia.
  - intros c Hc. apply first_n_subset in Hc.
    rewrite !elem_of_app in Hc.
    destruct Hc as [[Hc|[Hc|[Hc|Hc]]]|Hc];
      apply first_n_subset in Hc; try apply drop_subset in Hc;
      apply bucket_elem in Hc; tauto.
Qed.

Lemma select_test_subset_members_witness :
  len (select_test_subset example_corpus 7) <= 7.
Proof.
  apply (select_test_subset_members example_corpus 7);
    [lia | vm_compute; reflexivity].
Defined.

Lemma len_app {A} (l1 l2 : list A) : len (l1 ++ l2) = len l1 + len l2.
Proof. unfold len. rewrite length_app. lia. Qed.

Lemma len_first_n {A} (k : Z) (l : list A) :
  len (first_n k l) = Z.max 0 (Z.min k (len l)).
Proof. unfold len, first_n. rewrite length_take. lia. Qed.

Lemma len_drop {A} (n : nat) (l : list A) :
  len (drop n l) = Z.max 0 (len l - Z.of_nat n).
Proof. unfold len. rewrite length_drop. lia. Qed.

Lemma len_first_n_exact {A} (k : Z) (l : list A) :
  0 <= k <= len l -> len (first_n k l) = k.
Proof. intros H. rewrite len_first_n. lia. Qed.

(** X12: when the corpus holds at least [count] SELECT cases (and more
    cases than [count] in all), the sample has exactly [count] cases. *)
Theorem select_test_subset_full :
  forall (corpus : list TestCase) (count : Z),
    0 <= count -> count < len corpus ->
    count <= len (List.filter
                    (fun item => sql_startswith "SELECT" (sql item)) corpus) ->
    len (select_test_subset corpus count) = count.
Proof.
  intros corpus count H0 Hlt Hsel.
  rewrite (select_test_subset_selection corpus count H0 Hlt).
  unfold sample_stated. cbv zeta. fold (bucket "SELECT" corpus) in Hsel.
  set (selects := bucket "SELECT" corpus) in *.
  set (inserts := bucket "INSERT" corpus).
  set (updates := bucket "UPDATE" corpus).
  set (deletes := bucket "DELETE" corpus).
  assert (Hlen : forall l : list TestCase, 0 <= len l) by (intros; unfold len; lia).
  pose proof (Hlen inserts) as Hi. pose proof (Hlen updates) as Hu.
  pose proof (Hlen deletes) as Hd.
  pose proof (Z.mul_div_le count 2 ltac:(lia)) as H2.
  pose proof (Z.mul_div_le count 6 ltac:(lia)) as H6.
  pose proof (Z.div_pos count 2 H0 ltac:(lia)) as P2.
  pose proof (Z.div_pos count 6 H0 ltac:(lia)) as P6.
  set (half := count / 2) in *. set (sixth := count / 6) in *.
  clearbody half sixth.
  assert (Hsc : Z.min half (len selects) = half) by lia.
  rewrite Hsc.
  set (ic := Z.min sixth (len inserts)).
  set (uc := Z.min sixth (len updates)).
  assert (Hic : 0 <= ic <= len inserts /\ ic <= sixth) by (unfold ic; lia).
  assert (Huc : 0 <= uc <= len updates /\ uc <= sixth) by (unfold uc; lia).
  clearbody ic uc.
  set (dc := Z.min (count - half - ic - uc) (len deletes)).
  assert (Hdc : 0 <= dc <= len deletes /\ dc <= count - half - ic - uc)
    by (unfold dc; lia).
  clearbody dc.
  rewrite len_first_n, len_app, len_first_n, len_drop.
  rewrite !len_app.
  rewrite (len_first_n_exact half selects) by lia.
  rewrite (len_first_n_exact ic inserts) by lia.
  rewrite (len_first_n_exact uc updates) by lia.
  rewrite (len_first_n_exact dc deletes) by lia.
  set (p := half + (ic + (uc + dc))).
  assert (Hp : half <= p <= count) by (unfold p; lia).
  clearbody p.
  set (n := len selects) in *. clearbody n.
  rewrite Z2Nat.id by lia.
  rewrite (Z.max_r 0 (n - half)) by lia.
  rewrite (Z.min_l (count - p) (n - half)) by lia.
  rewrite (Z.max_r 0 (count - p)) by lia.
  replace (p + (count - p)) with count by lia.
  rewrite Z.min_id. lia.
Qed.
Lemma select_test_subset_full_witness :
  len (select_test_subset example_corpus 9) = 9.
Proof.
  apply (select_test_subset_full example_corpus 9);
    [lia | vm_compute; reflexivity | vm_compute; discriminate].
Defined.

Lemma startswith_same_length (x p1 p2 : str) :
  startswith x p1 = true -> startswith x p2 = true ->
  length p1 = length p2 -> p1 = p2.
Proof.
  revert x p2. induction p1 as [|c p1 IH]; intros x p2 H1 H2 Hlen.
  - destruct p2; [reflexivity | discriminate].
  - destruct p2 as [|d p2]; [discriminate|].
    destruct x as [|y x]; [discriminate|].
    simpl in H1, H2.
    apply andb_prop in H1 as [Hc H1]. apply andb_prop in H2 as [Hd H2].
    apply Ascii.eqb_eq in Hc. apply Ascii.eqb_eq in Hd. subst.
    f_equal. apply (IH x); [assumption | assumption |].
    simpl in Hlen. lia.
Qed.

(** A statement falls under one keyword of the same length at most. *)
Lemma sql_startswith_exclusive (k1 k2 : string) (s : str) :
  sql_startswith k1 s = true -> sql_startswith k2 s = true ->
  length (lit k1) = length (lit k2) -> lit k1 = lit k2.
Proof. unfold sql_startswith. apply startswith_same_length. Qed.

Lemma bucket_NoDup (keyword : string) (corpus : list TestCase) :
  NoDup corpus -> NoDup (bucket keyword corpus).
Proof.
  intros H. apply NoDup_ListNoDup. apply List.NoDup_filter.
  apply NoDup_ListNoDup. exact H.
Qed.

Lemma buckets_disjoint (k1 k2 : string) (corpus : list TestCase)
  (n1 n2 : Z) (m : nat) c :
  length (lit k1) = length (lit k2) -> lit k1 <> lit k2 ->
  c ∈ first_n n1 (bucket k1 corpus) ->
  c ∈ first_n n2 (drop m (bucket k2 corpus)) -> False.
Proof.
  intros Hlen Hne H1 H2.
  apply first_n_subset, bucket_elem in H1 as [_ H1].
  apply first_n_subset, drop_subset, bucket_elem in H2 as [_ H2].
  apply Hne. eapply sql_startswith_exclusive; eauto.
Qed.

Lemma first_n_NoDup {A} (k : Z) (l : list A) : NoDup l -> NoDup (first_n k l).
Proof.
  unfold first_n. intros H. eapply sublist_NoDup; [exact H | apply sublist_take].
Qed.

(** X13: for a count between 0 and the corpus size, no case of a corpus
    without repetitions is sampled twice. *)
Theorem select_test_subset_no_repetition :
  forall (corpus : list TestCase) (count : Z),
    0 <= count -> count < len corpus ->
    NoDup corpus -> NoDup (select_test_subset corpus count).
Proof.
  intros corpus count H0 Hlt Hnd.
  rewrite (select_test_subset_selection corpus count H0 Hlt).
  unfold sample_stated. cbv zeta.
  set (sc := Z.min (count / 2) (len (bucket "SELECT" corpus))).
  set (ic := Z.min (count / 6) (len (bucket "INSERT" corpus))).
  set (uc := Z.min (count / 6) (len (bucket "UPDATE" corpus))).
  set (dc := Z.min (count - sc - ic - uc) (len (bucket "DELETE" corpus))).
  set (picked := first_n sc _ ++ first_n ic _ ++ first_n uc _ ++ first_n dc _).
  set (rem := count - len picked).
  apply first_n_NoDup.
  unfold picked. rewrite <- !app_assoc.
  assert (Hb : forall k n, NoDup (first_n n (bucket k corpus))).
  { intros k n. apply first_n_NoDup, bucket_NoDup, Hnd. }
  assert (Hd : forall k n2 c, c ∈ first_n n2 (bucket k corpus) ->
                 c ∈ first_n n2 (drop 0 (bucket k corpus)))
    by (intros; assumption).
  assert (Hsplit : NoDup (first_n sc (bucket "SELECT" corpus)
                          ++ drop (Z.to_nat sc) (bucket "SELECT" corpus))).
  { unfold first_n. rewrite take_drop. apply bucket_NoDup, Hnd. }
  apply NoDup_app in Hsplit as (_ & Hsd & Hdrop).
  repeat (apply NoDup_app; split; [apply Hb|]; split).
  - intros c Hc Hin. rewrite !elem_of_app in Hin.
    destruct Hin as [Hin|[Hin|[Hin|Hin]]].
    + apply Hd in Hin. eapply (buckets_disjoint "SELECT" "INSERT"); [reflexivity | discriminate | eassumption | eassumption].
    + apply Hd in Hin. eapply (buckets_disjoint "SELECT" "UPDATE"); [reflexivity | discriminate | eassumption | eassumption].
    + apply Hd in Hin. eapply (buckets_disjoint "SELECT" "DELETE"); [reflexivity | discriminate | eassumption | eassumption].
    + apply first_n_subset in Hin. exact (Hsd c Hc Hin).
  - intros c Hc Hin. rewrite !elem_of_app in Hin.
    destruct Hin as [Hin|[Hin|Hin]].
    + apply Hd in Hin. eapply (buckets_disjoint "INSERT" "UPDATE"); [reflexivity | discriminate | eassumption | eassumption].
    + apply Hd in Hin. eapply (buckets_disjoint "INSERT" "DELETE"); [reflexivity | discriminate | eassumption | eassumption].
    + eapply (buckets_disjoint "INSERT" "SELECT"); [reflexivity | discriminate | eassumption | eassumption].
  - intros c Hc Hin. rewrite !elem_of_app in Hin.
    destruct Hin as [Hin|Hin].
    + apply Hd in Hin. eapply (buckets_disjoint "UPDATE" "DELETE"); [reflexivity | discriminate | eassumption | eassumption].
    + eapply (buckets_disjoint "UPDATE" "SELECT"); [reflexivity | discriminate | eassumption | eassumption].
  - intros c Hc Hin.
    eapply (buckets_disjoint "DELETE" "SELECT"); [reflexivity | discriminate | eassumption | eassumption].
  - apply first_n_NoDup. exact Hdrop.
Qed.

(** The worked corpus has no repeated case. *)
Lemma select_test_subset_no_repetition_witness :
  NoDup (select_test_subset example_corpus 6).
Proof.
  apply (select_test_subset_no_repetition example_corpus 6);
    [lia | vm_compute; reflexivity|].
  apply (bool_decide_unpack _). vm_compute. exact I.
Defined.

(** ** The SQL generator *)

Lemma py_replace_from_skip (k : nat) (old new s : str) :
  py_replace_from k old new s = py_replace_from 0 old new (drop k s).
Proof.
  revert s. induction k as [|k IH]; intros s; [rewrite drop_0; reflexivity|].
  destruct s as [|c t]; [reflexivity|]. simpl. apply IH.
Qed.

Lemma py_replace_cons (old new : str) (c : ascii) (t : str) :
  py_replace old new (c :: t)
  = if startswith (c :: t) old
    then new ++ py_replace old new (drop (length old - 1) t)
    else c :: py_replace old new t.
Proof.
  unfold py_replace. simpl py_replace_from at 1.
  rewrite py_replace_from_skip. reflexivity.
Qed.

(** Text without the first character of [old] passes through. *)
Lemma py_replace_app_free (c0 : ascii) (old' new u v : str) :
  Forall (fun c => c <> c0) u ->
  py_replace (c0 :: old') new (u ++ v) = u ++ py_replace (c0 :: old') new v.
Proof.
  induction 1 as [|c u Hc Hu IH]; [reflexivity|].
  simpl app. rewrite py_replace_cons.
  assert (Hs : startswith (c :: u ++ v) (c0 :: old') = false).
  { simpl. destruct (Ascii.eqb c c0) eqn:He; [|reflexivity].
    apply Ascii.eqb_eq in He. contradiction. }
  rewrite Hs, IH. reflexivity.
Qed.

Lemma py_replace_prefix (old new v : str) :
  old <> [] -> py_replace old new (old ++ v) = new ++ py_replace old new v.
Proof.
  destruct old as [|c0 old']; [contradiction|]. intros _.
  change ((c0 :: old') ++ v) with (c0 :: (old' ++ v)).
  rewrite py_replace_cons.
  change (c0 :: (old' ++ v)) with ((c0 :: old') ++ v).
  rewrite startswith_app.
  replace (length (c0 :: old') - 1)%nat with (length old') by (simpl; lia).
  rewrite drop_app_length. reflexivity.
Qed.

Lemma py_replace_free (c0 : ascii) (old' new u : str) :
  Forall (fun c => c <> c0) u -> py_replace (c0 :: old') new u = u.
Proof.
  intros H. rewrite <- (app_nil_r u) at 1.
  rewrite py_replace_app_free by exact H. apply app_nil_r.
Qed.

Lemma startswith_prefix_app (sub x u : str) :
  startswith x sub = true -> startswith (x ++ u) sub = true.
Proof.
  revert x. induction sub as [|p sub IH]; intros x H.
  - apply startswith_nil.
  - destruct x as [|y x]; [discriminate|]. simpl in H. simpl.
    apply andb_prop in H as [Hy Hx]. rewrite Hy, (IH x Hx). reflexivity.
Qed.

Lemma contains_sub_prefix (sub t u : str) :
  sub <> [] ->
  contains_sub sub (t ++ u) = false -> contains_sub sub t = false.
Proof.
  intros Hne. induction t as [|c t IH].
  - intros _. destruct sub; [contradiction | reflexivity].
  - change (contains_sub sub ((c :: t) ++ u))
      with (startswith ((c :: t) ++ u) sub || contains_sub sub (t ++ u)).
    change (contains_sub sub (c :: t))
      with (startswith (c :: t) sub || contains_sub sub t).
    intros H. apply orb_false_elim in H as [H1 H2].
    rewrite (IH H2), orb_false_r.
    destruct (startswith (c :: t) sub) eqn:Hs; [|reflexivity].
    rewrite (startswith_prefix_app sub (c :: t) u Hs) in H1. discriminate.
Qed.

Lemma contains_sub_lstrip p (sub u : str) :
  contains_sub sub u = false -> contains_sub sub (lstrip_by p u) = false.
Proof.
  induction u as [|c u IH]; simpl; [exact id|].
  intros H. destruct (p c); [|exact H].
  apply IH. apply orb_false_elim in H as [_ H]. exact H.
Qed.

Lemma contains_sub_strip (sub u : str) :
  sub <> [] -> contains_sub sub u = false -> contains_sub sub (strip u) = false.
Proof.
  intros Hne H. unfold strip.
  destruct (rstrip_by_prefix isspace (lstrip_by isspace u)) as (v & Hv & _).
  apply (contains_sub_prefix sub _ v Hne). rewrite <- Hv.
  apply contains_sub_lstrip. exact H.
Qed.

(** After the fences are removed, what is left does not begin a fence. *)
Lemma py_replace_fence_head (c : ascii) (t : str) :
  startswith (c :: t) fence = false ->
  startswith (c :: py_replace fence [] t) fence = false.
Proof.
  intros H. unfold fence in *.
  destruct (Ascii.eqb_spec c backtick) as [->|Hc].
  2:{ simpl. destruct (Ascii.eqb c backtick) eqn:He; [|reflexivity].
      apply Ascii.eqb_eq in He. contradiction. }
  destruct t as [|d t]; [reflexivity|].
  rewrite py_replace_cons.
  destruct (Ascii.eqb_spec d backtick) as [->|Hd].
  2:{ assert (Hs : startswith (d :: t) [backtick; backtick; backtick] = false).
      { simpl. destruct (Ascii.eqb d backtick) eqn:He; [|reflexivity].
        apply Ascii.eqb_eq in He. contradiction. }
      rewrite Hs. simpl. destruct (Ascii.eqb d backtick) eqn:He; [|reflexivity].
      apply Ascii.eqb_eq in He. contradiction. }
  destruct t as [|e t]; [reflexivity|].
  destruct (Ascii.eqb_spec e backtick) as [->|He].
  { change (startswith ([backtick; backtick; backtick] ++ t)
                        [backtick; backtick; backtick] = false) in H.
    rewrite startswith_app in H. discriminate. }
  assert (Hs : startswith (backtick :: e :: t) [backtick; backtick; backtick] = false).
  { simpl. destruct (Ascii.eqb e backtick) eqn:Hq; [|reflexivity].
    apply Ascii.eqb_eq in Hq. contradiction. }
  rewrite Hs. simpl.
  assert (Hs2 : startswith (e :: t) [backtick; backtick; backtick] = false).
  { simpl. destruct (Ascii.eqb e backtick) eqn:Hq; [|reflexivity].
    apply Ascii.eqb_eq in Hq. contradiction. }
  rewrite py_replace_cons, Hs2. simpl.
  destruct (Ascii.eqb e backtick) eqn:Hq; [|reflexivity].
  apply Ascii.eqb_eq in Hq. contradiction.
Qed.

Lemma py_replace_fence_none_aux (n : nat) (s : str) :
  (length s <= n)%nat -> contains_sub fence (py_replace fence [] s) = false.
Proof.
  revert s. induction n as [|n IH]; intros s Hn.
  - destruct s; [reflexivity | simpl in Hn; lia].
  - destruct s as [|c t]; [reflexivity|].
    rewrite py_replace_cons.
    destruct (startswith (c :: t) fence) eqn:Hs.
    + simpl. apply IH. rewrite length_drop. simpl in Hn. lia.
    + simpl. rewrite (IH t) by (simpl in Hn; lia). rewrite orb_false_r.
      apply py_replace_fence_head. exact Hs.
Qed.

Lemma py_replace_fence_none (s : str) :
  contains_sub fence (py_replace fence [] s) = false.
Proof. apply (py_replace_fence_none_aux (length s)). lia. Qed.

Lemma strip_strip (u : str) : strip (strip u) = strip u.
Proof.
  unfold strip.
  rewrite (lstrip_fixed (rstrip_by isspace (lstrip_by isspace u))).
  - apply rstrip_by_idempotent.
  - apply rstrip_by_starts, lstrip_starts.
Qed.

(** X14: what [generate_sql] returns has no whitespace at either end and
    holds no run of three backticks, whatever the completion service
    answers; when the service fails it is the empty string. *)
Theorem generate_sql_output_clean :
  forall (complete : str -> py_exn + str) (question : str),
    starts_with_space (generate_sql_with complete question) = false
    /\ (forall c, last (generate_sql_with complete question) = Some c ->
                  isspace c = false)
    /\ contains_sub fence (generate_sql_with complete question) = false
    /\ (forall e, complete question = inl e ->
                  generate_sql_with complete question = []).
Proof.
  intros complete question. unfold generate_sql_with.
  destruct (complete question) as [e|content].
  - repeat split; try reflexivity. discriminate.
  - cbv zeta. repeat split.
    + unfold strip. apply rstrip_by_starts, lstrip_starts.
    + intros c Hc. unfold strip in Hc at 1.
      apply rstrip_by_last in Hc. exact Hc.
    + apply contains_sub_strip; [discriminate|]. apply py_replace_fence_none.
    + discriminate.
Qed.

Lemma strip_fenced (body : str) :
  strip (fence_sql ++ body ++ fence) = fence_sql ++ body ++ fence.
Proof.
  unfold strip. rewrite lstrip_fixed by reflexivity.
  apply rstrip_by_fixed. intros c Hc.
  rewrite !app_assoc in Hc. unfold fence in Hc.
  rewrite last_app in Hc. simpl in Hc. injection Hc as <-. reflexivity.
Qed.

(** X15: an answer wrapped in a fence (three backticks and [sql] before,
    three backticks after, whitespace around), whose body holds no
    backtick, is returned as its trimmed body; an answer without any
    backtick is returned trimmed. *)
Theorem generate_sql_unwraps_fence :
  forall (complete : str -> py_exn + str) (question ws1 body ws2 : str),
    Forall (fun c => c <> backtick) body ->
    forallb isspace ws1 = true -> forallb isspace ws2 = true ->
    (complete question = inr (ws1 ++ (fence_sql ++ body ++ fence) ++ ws2) ->
     generate_sql_with complete question = strip body)
    /\ (complete question = inr (ws1 ++ body ++ ws2) ->
        generate_sql_with complete question = strip body).
Proof.
  intros complete question ws1 body ws2 Hbody H1 H2. split; intros Hc;
    unfold generate_sql_with; rewrite Hc; cbv zeta;
    rewrite (strip_surrounded ws1 _ ws2 H1 H2).
  - rewrite strip_fenced.
    assert (Hfirst : py_replace fence_sql [] (fence_sql ++ body ++ fence)
                     = body ++ fence).
    { rewrite py_replace_prefix by discriminate. unfold fence_sql, fence at 1.
      simpl app.
      rewrite (py_replace_app_free backtick _ [] body fence Hbody).
      reflexivity. }
    rewrite Hfirst. unfold fence at 1.
    rewrite (py_replace_app_free backtick _ [] body fence Hbody).
    replace (py_replace [backtick; backtick; backtick] [] fence) with (@nil ascii)
      by reflexivity.
    rewrite app_nil_r. reflexivity.
  - assert (Hs : Forall (fun c => c <> backtick) (strip body)).
    { unfold strip. apply rstrip_by_Forall, lstrip_by_Forall. exact Hbody. }
    change fence_sql with (backtick :: ([backtick; backtick] ++ lit "sql")).
    rewrite (py_replace_free backtick _ [] (strip body) Hs).
    change fence with (backtick :: [backtick; backtick]).
    rewrite (py_replace_free backtick _ [] (strip body) Hs).
    apply strip_strip.
Qed.

Lemma generate_sql_unwraps_fence_witness :
  generate_sql_with
    (fun _ => inr (lit " " ++ (fence_sql ++ lit " SELECT 1; " ++ fence) ++ lit " "))
    (lit "one")
  = lit "SELECT 1;".
Proof.
  refine (proj1 (generate_sql_unwraps_fence
                   (fun _ => inr (lit " " ++ (fence_sql ++ lit " SELECT 1; "
                                              ++ fence) ++ lit " "))
                   (lit "one") (lit " ") (lit " SELECT 1; ") (lit " ")
                   _ _ _) _).
  - repeat constructor; discriminate.
  - reflexivity.
  - reflexivity.
  - reflexivity.
Defined.

Lemma calculate_ratio_none (n : nat) :
  (0 < n)%nat -> Difflib.calculate_ratio 0 n = 0%Q.
Proof. destruct n as [|n]; [lia|]. intros _. reflexivity. Qed.

(** X16: when the completion service fails, the case is evaluated with
    the empty statement: against a reference whose normal form is not
    empty it scores exact match 0 and similarity 0, against one whose
    normal form is empty it scores 1 and 1. *)
Theorem evaluate_single_query_generation_failure :
  forall (E : Engine) (complete : str -> py_exn + str)
         (question reference_sql : str) (e : py_exn) (w : World E),
    complete question = inl e ->
    exists res w',
      evaluate_single_query E (generate_sql_with complete)
        question reference_sql w = (inr res, w')
      /\ cr_predicted_sql res = []
      /\ (normalize_sql reference_sql <> [] ->
          cr_exact_match res = 0%Q /\ cr_similarity res = 0%Q)
      /\ (normalize_sql reference_sql = [] ->
          cr_exact_match res = 1%Q /\ cr_similarity res = 1%Q).
Proof.
  intros E complete question reference_sql e w He.
  destruct (evaluate_single_query_effect E (generate_sql_with complete)
              question reference_sql w)
    as (res & w' & evs & Hrun & _ & _ & Hp & Hem & Hsim & _).
  assert (Hg : generate_sql_with complete question = [])
    by (unfold generate_sql_with; rewrite He; reflexivity).
  rewrite Hg in Hp, Hem, Hsim.
  exists res, w'. split; [exact Hrun|]. split; [exact Hp|].
  rewrite Hem, Hsim. unfold exact_match_score, sql_similarity. cbv zeta.
  change (normalize_sql []) with (@nil ascii).
  split; intros Hn.
  - split.
    + unfold str_eqb. rewrite bool_decide_eq_false_2 by congruence. reflexivity.
    + rewrite DifflibFacts.ratio_nil_l. apply calculate_ratio_none.
      destruct (normalize_sql reference_sql); [contradiction | simpl; lia].
  - rewrite Hn. split; reflexivity.
Qed.

Lemma evaluate_single_query_generation_failure_witness :
  exists res w',
    evaluate_single_query MiniDb.engine
      (generate_sql_with
         (fun _ => inl {| exn_kind := OtherException; exn_message := lit "timeout" |}))
      (lit "one") (lit "SELECT 1") (MiniDb.world None) = (inr res, w')
    /\ cr_predicted_sql res = []
    /\ (normalize_sql (lit "SELECT 1") <> [] ->
        cr_exact_match res = 0%Q /\ cr_similarity res = 0%Q)
    /\ (normalize_sql (lit "SELECT 1") = [] ->
        cr_exact_match res = 1%Q /\ cr_similarity res = 1%Q).
Proof.
  apply (evaluate_single_query_generation_failure MiniDb.engine
           (fun _ => inl {| exn_kind := OtherException;
                            exn_message := lit "timeout" |})
           (lit "one") (lit "SELECT 1")
           {| exn_kind := OtherException; exn_message := lit "timeout" |}).
  reflexivity.
Defined.

(** ** The whole run *)

Lemma select_test_subset_bounded (corpus : list TestCase) (count : Z) :
  0 <= count ->
  len (select_test_subset corpus count) <= count
  /\ forall c, c ∈ select_test_subset corpus count -> c ∈ corpus.
Proof.
  intros H0. destruct (Z_lt_ge_dec count (len corpus)) as [Hlt|Hge].
  - rewrite (select_test_subset_selection corpus count H0 Hlt).
    unfold sample_stated. cbv zeta. split.
    + unfold first_n at 1. unfold len. rewrite length_take. lia.
    + intros c Hc. apply first_n_subset in Hc.
      rewrite !elem_of_app in Hc.
      destruct Hc as [[Hc|[Hc|[Hc|Hc]]]|Hc];
        apply first_n_subset in Hc; try apply drop_subset in Hc;
        apply bucket_elem in Hc; tauto.
  - unfold select_test_subset.
    destruct (Z.geb_spec count (len corpus)) as [_|Hlt]; [|lia].
    split; [lia | auto].
Qed.

(** X17: the run of [main] evaluates at most 25 cases, each of them a
    case of the corpus (the whole corpus, in order, when it has no more
    than 25 cases), executes at most 75 statements and closes every
    connection it opens. *)
Theorem main_evaluation_sample :
  forall (E : Engine) (generate_sql : str -> str)
         (test_data : list TestCase) (w : World E),
  exists report w' evs,
    main_evaluation E generate_sql test_data w = (inr report, w')
    /\ total_samples report <= 25
    /\ total_samples report = len (detailed_results report)
    /\ (forall r, r ∈ detailed_results report ->
          exists c, c ∈ test_data
                    /\ cr_question r = question c
                    /\ cr_reference_sql r = sql c
                    /\ cr_predicted_sql r = generate_sql (question c))
    /\ (len test_data <= 25 ->
        map cr_question (detailed_results report) = map question test_data)
    /\ log w' = log w ++ evs
    /\ (count_events is_execute evs <= 75)%nat
    /\ count_events is_connect evs = count_events is_close evs.
Proof.
  intros E generate_sql test_data w. unfold main_evaluation. cbv zeta.
  destruct (select_test_subset_bounded test_data 25 ltac:(lia)) as [Hlen Hsub].
  destruct (evaluate_each_effect E generate_sql
              (select_test_subset test_data 25) [] w)
    as (new & w' & evs & Hrun & Hq & Hr & Hp & _ & _ & Hl & Hx & Hc).
  simpl in Hrun.
  assert (Hn : length new = length (select_test_subset test_data 25))
    by (rewrite <- (length_map cr_question), Hq, length_map; reflexivity).
  eexists _, w', evs. unfold evaluate_dataset, bind. rewrite Hrun.
  unfold ret. split; [reflexivity|]. cbn [total_samples detailed_results].
  repeat split; try assumption.
  - unfold len in *. rewrite Hn. exact Hlen.
  - intros r Hr'. apply list_elem_of_lookup in Hr' as [i Hi].
    destruct (lookup_lt_is_Some_2 (select_test_subset test_data 25) i) as [c Hci].
    { rewrite <- Hn. eapply lookup_lt_Some. exact Hi. }
    exists c. split; [apply Hsub; eapply list_elem_of_lookup_2; exact Hci|].
    assert (Hmap : forall {A} (f : CaseResult -> A) (g : TestCase -> A),
               map f new = map g (select_test_subset test_data 25) ->
               f r = g c).
    { intros A f g Hfg.
      assert (Hf : map f new !! i = Some (f r))
        by (rewrite list_lookup_fmap, Hi; reflexivity).
      rewrite Hfg, list_lookup_fmap, Hci in Hf. simpl in Hf. congruence. }
    repeat split.
    + apply (Hmap _ cr_question question Hq).
    + apply (Hmap _ cr_reference_sql sql Hr).
    + apply (Hmap _ cr_predicted_sql (fun c => generate_sql (question c)) Hp).
  - intros Hall. rewrite Hq. unfold select_test_subset.
    destruct (Z.geb_spec 25 (len test_data)) as [_|Hlt]; [reflexivity | lia].
  - unfold len in Hlen. lia.
Qed.

(** ** The error analysis *)

Lemma fold_count_result (results : list CaseResult) (acc : ErrorTypes) :
  (fully_correct (fold_left count_result results acc)
   + syntax_error (fold_left count_result results acc)
   + wrong_result (fold_left count_result results acc)
   + execution_failed (fold_left count_result results acc)
   = fully_correct acc + syntax_error acc + wrong_result acc
     + execution_failed acc + length results)%nat
  /\ (execution_failed (fold_left count_result results acc)
      = execution_failed acc
        + length (List.filter
                    (fun r => negb (Qeq_bool (cr_exact_match r) 1)
                              && cr_is_executable r
                              && negb (Qeq_bool (cr_execution_accuracy r) 0))
                    results))%nat.
Proof.
  revert acc. induction results as [|r results IH]; intros acc.
  - simpl. split; lia.
  - cbn [fold_left List.filter]. destruct (IH (count_result acc r)) as [IH1 IH2].
    rewrite IH1, IH2. clear IH IH1 IH2. unfold count_result.
    destruct (Qeq_bool (cr_exact_match r) 1), (cr_is_executable r),
      (Qeq_bool (cr_execution_accuracy r) 0); simpl; split; lia.
Qed.

(** X18: the four counters of the error analysis add up to the number of
    results.  The counter shown as execution failed counts the results
    that are executable, have a non-zero execution accuracy and no exact
    match; where no statement could be executed it stays 0. *)
Theorem error_types_partition :
  forall (detailed_results : list CaseResult),
    (fully_correct (error_types detailed_results)
     + syntax_error (error_types detailed_results)
     + wrong_result (error_types detailed_results)
     + execution_failed (error_types detailed_results)
     = length detailed_results)%nat
    /\ execution_failed (error_types detailed_results)
       = length (List.filter
                   (fun r => negb (Qeq_bool (cr_exact_match r) 1)
                             && cr_is_executable r
                             && negb (Qeq_bool (cr_execution_accuracy r) 0))
                   detailed_results)
    /\ (Forall (fun r => cr_is_executable r = false) detailed_results ->
        execution_failed (error_types detailed_results) = 0%nat).
Proof.
  intros detailed_results. unfold error_types.
  destruct (fold_count_result detailed_results
              {| fully_correct := 0; syntax_error := 0; wrong_result := 0;
                 execution_failed := 0 |}) as [H1 H2].
  cbn [fully_correct syntax_error wrong_result execution_failed] in H1, H2.
  split; [exact H1|]. split; [exact H2|].
  intros Hall. rewrite H2. clear H1 H2.
  induction Hall as [|r rs Hr Hrs IH]; [reflexivity|].
  cbn [List.filter]. rewrite Hr, andb_false_r. exact IH.
Qed.

(** ** The samples of the detailed report *)

Lemma classify_samples_effect (results : list CaseResult) (i : nat)
  (errs perf : list (nat * CaseResult)) :
  exists errs' perf',
    classify_samples i results errs perf = (errs ++ errs', perf ++ perf')
    /\ (length errs' + length perf' <= length results)%nat
    /\ (Forall (fun r => Qeq_bool (cr_exact_match r) 0 = true
                         \/ Qeq_bool (cr_exact_match r) 1 = true) results ->
        (length errs' + length perf' = length results)%nat)
    /\ (forall idx r, (idx, r) ∈ errs' ++ perf' ->
          (i < idx)%nat /\ results !! (idx - 1 - i)%nat = Some r)
    /\ Forall (fun s => Qeq_bool (cr_exact_match s.2) 0
                        || Qeq_bool (cr_execution_accuracy s.2) 0 = true) errs'
    /\ Forall (fun s => Qeq_bool (cr_exact_match s.2) 1 = true
                        /\ Qeq_bool (cr_execution_accuracy s.2) 0 = false) perf'.
Proof.
  revert i errs perf. induction results as [|r rest IH]; intros i errs perf.
  - exists [], []. simpl. rewrite !app_nil_r.
    split; [reflexivity|]. split; [simpl; lia|].
    split; [intros _; reflexivity|].
    split; [intros idx x H; apply elem_of_nil in H; contradiction|].
    split; constructor.
  - cbn [classify_samples].
    destruct (Qeq_bool (cr_exact_match r) 0
              || Qeq_bool (cr_execution_accuracy r) 0) eqn:Herr;
      [|destruct (Qeq_bool (cr_exact_match r) 1) eqn:Hone].
    + destruct (IH (S i) (errs ++ [((i + 1)%nat, r)]) perf)
        as (e' & p' & Hrun & Hle & Heq & Hidx & He & Hp).
      exists (((i + 1)%nat, r) :: e'), p'. rewrite Hrun, <- app_assoc.
      split; [reflexivity|]. cbn [length app].
      split; [lia|]. split; [|split; [|split]].
      * intros Hall. inversion Hall; subst. specialize (Heq ltac:(assumption)). lia.
      * intros idx x Hin. apply elem_of_cons in Hin as [Hin|Hin].
        -- injection Hin as Hi1 Hi2; subst idx x. split; [lia|].
           replace (i + 1 - 1 - i)%nat with 0%nat by lia. reflexivity.
        -- destruct (Hidx idx x Hin) as [Hlt Hl]. split; [lia|].
           replace (idx - 1 - i)%nat with (S (idx - 1 - S i)) by lia. exact Hl.
      * constructor; [exact Herr | exact He].
      * exact Hp.
    + destruct (IH (S i) errs (perf ++ [((i + 1)%nat, r)]))
        as (e' & p' & Hrun & Hle & Heq & Hidx & He & Hp).
      exists e', (((i + 1)%nat, r) :: p'). rewrite Hrun, <- app_assoc.
      split; [reflexivity|]. cbn [length].
      split; [lia|]. split; [|split; [|split]].
      * intros Hall. inversion Hall; subst. specialize (Heq ltac:(assumption)). lia.
      * intros idx x Hin. apply elem_of_app in Hin as [Hin|Hin];
          [|apply elem_of_cons in Hin as [Hin|Hin]].
        -- destruct (Hidx idx x) as [Hlt Hl];
             [apply elem_of_app; left; exact Hin|].
           split; [lia|].
           replace (idx - 1 - i)%nat with (S (idx - 1 - S i)) by lia. exact Hl.
        -- injection Hin as Hi1 Hi2; subst idx x. split; [lia|].
           replace (i + 1 - 1 - i)%nat with 0%nat by lia. reflexivity.
        -- destruct (Hidx idx x) as [Hlt Hl];
             [apply elem_of_app; right; exact Hin|].
           split; [lia|].
           replace (idx - 1 - i)%nat with (S (idx - 1 - S i)) by lia. exact Hl.
      * exact He.
      * constructor; [|exact Hp]. split; [exact Hone|].
        apply orb_false_elim in Herr as [_ Herr]. exact Herr.
    + destruct (IH (S i) errs perf)
        as (e' & p' & Hrun & Hle & Heq & Hidx & He & Hp).
      exists e', p'. rewrite Hrun.
      split; [reflexivity|]. cbn [length].
      split; [lia|]. split; [|split; [|split]].
      * intros Hall. inversion Hall as [|? ? [H0|H1] ?]; subst.
        -- rewrite H0 in Herr. discriminate.
        -- rewrite H1 in Hone. discriminate.
      * intros idx x Hin. destruct (Hidx idx x Hin) as [Hlt Hl]. split; [lia|].
        replace (idx - 1 - i)%nat with (S (idx - 1 - S i)) by lia. exact Hl.
      * exact He.
      * exact Hp.
Qed.

(** X19: the detailed report numbers its samples from 1: a sample listed
    with number [idx] is the result at position [idx - 1].  An error
    sample has exact match 0 or execution accuracy 0, a perfect sample has
    exact match 1 and a non-zero execution accuracy; the two lists
    together never hold more entries than there are results, and exactly
    as many when every exact-match score is 0 or 1, as the evaluator
    produces them. *)
Theorem report_samples_partition :
  forall (detailed_results : list CaseResult),
    (length (error_samples detailed_results)
     + length (perfect_samples detailed_results)
     <= length detailed_results)%nat
    /\ (Forall (fun r => Qeq_bool (cr_exact_match r) 0 = true
                         \/ Qeq_bool (cr_exact_match r) 1 = true)
          detailed_results ->
        (length (error_samples detailed_results)
         + length (perfect_samples detailed_results)
         = length detailed_results)%nat)
    /\ (forall idx r,
          (idx, r) ∈ error_samples detailed_results
                     ++ perfect_samples detailed_results ->
          (1 <= idx)%nat /\ detailed_results !! (idx - 1)%nat = Some r)
    /\ Forall (fun s => Qeq_bool (cr_exact_match s.2) 0
                        || Qeq_bool (cr_execution_accuracy s.2) 0 = true)
         (error_samples detailed_results)
    /\ Forall (fun s => Qeq_bool (cr_exact_match s.2) 1 = true
                        /\ Qeq_bool (cr_execution_accuracy s.2) 0 = false)
         (perfect_samples detailed_results).
Proof.
  intros detailed_results. unfold error_samples, perfect_samples.
  destruct (classify_samples_effect detailed_results 0 [] [])
    as (e' & p' & Hrun & Hle & Heq & Hidx & He & Hp).
  rewrite Hrun. cbn [fst snd app].
  split; [exact Hle|]. split; [exact Heq|]. split; [|split; assumption].
  intros idx r Hin. destruct (Hidx idx r Hin) as [Hlt Hl].
  split; [lia|]. rewrite Nat.sub_0_r in Hl. exact Hl.
Qed.
